(** * The SiK UART bootloader: command loop and boot gate

    A shallow embedding of [Firmware/bootloader/bootloader.c] and the
    properties of its command protocol.

    The serial link, the flash driver and the board constants live in
    headers and modules outside this file ([bootloader.h], [flash.h],
    [board.h], [util.h]); they enter the development as type classes
    whose fields carry the names the C code uses. *)

From Stdlib Require Import ZArith Lia Bool.
From stdpp Require Import base list.

Local Open Scope Z_scope.

(** ** Machine integers *)

(** [uint8_t] and [uint16_t] arithmetic, with the wrap-around written out. *)
Definition wrap8 (x : Z) : Z := x mod 256.
Definition wrap16 (x : Z) : Z := x mod 65536.

Definition is_uint8 (x : Z) : Prop := 0 <= x < 256.
Definition is_uint16 (x : Z) : Prop := 0 <= x < 65536.

(** ** Interfaces the bootloader is compiled against *)

(** The protocol constants of [bootloader.h]. *)
Class Protocol := {
  PROTO_OK : Z;
  PROTO_INSYNC : Z;
  PROTO_EOC : Z;
  PROTO_GET_SYNC : Z;
  PROTO_GET_DEVICE : Z;
  PROTO_CHIP_ERASE : Z;
  PROTO_LOAD_ADDRESS : Z;
  PROTO_PROG_FLASH : Z;
  PROTO_READ_FLASH : Z;
  PROTO_PROG_MULTI : Z;
  PROTO_READ_MULTI : Z;
  PROTO_PARAM_ERASE : Z;
  PROTO_REBOOT : Z;
  PROTO_PROG_MULTI_MAX : Z
}.

(** The board constants of [board.h] and [board_info.h], and the patched
    frequency byte [board_frequency]. *)
Class Board := {
  BOARD_ID : Z;
  board_frequency : Z;
  BL_VERSION : Z;
  BUTTON_ACTIVE : Z;
  LED_ON : Z;
  LED_OFF : Z;
  FLASH_APP_START : Z
}.

(** The flash driver of [flash.h], over an abstract flash content. *)
Class FlashDriver := {
  flash : Type;
  flash_app_valid : flash -> bool;
  flash_erase_app : flash -> flash;
  flash_erase_scratch : flash -> flash;
  flash_write_byte : flash -> Z -> Z -> flash;
  flash_read_byte : flash -> Z -> Z
}.

(** ** Observable events *)

(** What one run of the loop does to the outside world, in program order:
    bytes sent with [cout], calls into the flash driver, and stores into
    the staging buffer [buf]. *)
Inductive event :=
| EvCout (b : Z)
| EvEraseApp
| EvEraseScratch
| EvFlashWrite (a v : Z)
| EvFlashRead (a v : Z)
| EvBufStore (i v : Z).

(** The bytes sent on the serial link. *)
Fixpoint outputs (tr : list event) : list Z :=
  match tr with
  | [] => []
  | EvCout b :: tr' => b :: outputs tr'
  | _ :: tr' => outputs tr'
  end.

Definition is_flash_op (e : event) : bool :=
  match e with
  | EvEraseApp | EvEraseScratch | EvFlashWrite _ _ | EvFlashRead _ _ => true
  | _ => false
  end.

(** The calls into the flash driver. *)
Fixpoint flash_ops (tr : list event) : list event :=
  match tr with
  | [] => []
  | e :: tr' => if is_flash_op e then e :: flash_ops tr' else flash_ops tr'
  end.

(** The indices of [buf] that were stored to. *)
Fixpoint staged (tr : list event) : list Z :=
  match tr with
  | [] => []
  | EvBufStore i _ :: tr' => i :: staged tr'
  | _ :: tr' => staged tr'
  end.

Section Bootloader.

Context {P : Protocol} {B : Board} {F : FlashDriver}.

(** ** Machine state *)

(** The variables of [bootloader()] that live across statements, the global
    [buf], the two SFRs the loop writes, the flash content, the bytes still
    to arrive on the serial link and the events so far. *)
Record state := mkState {
  address : Z;
  buf : list Z;
  fl : flash;
  RSTSRC : Z;
  LED_BOOTLOADER : Z;
  input : list Z;
  trace : list event
}.

Definition set_address (a : Z) (s : state) : state :=
  mkState a (buf s) (fl s) (RSTSRC s) (LED_BOOTLOADER s) (input s) (trace s).
Definition set_buf (b : list Z) (s : state) : state :=
  mkState (address s) b (fl s) (RSTSRC s) (LED_BOOTLOADER s) (input s) (trace s).
Definition set_fl (f : flash) (s : state) : state :=
  mkState (address s) (buf s) f (RSTSRC s) (LED_BOOTLOADER s) (input s) (trace s).
Definition set_RSTSRC (r : Z) (s : state) : state :=
  mkState (address s) (buf s) (fl s) r (LED_BOOTLOADER s) (input s) (trace s).
Definition set_LED (l : Z) (s : state) : state :=
  mkState (address s) (buf s) (fl s) (RSTSRC s) l (input s) (trace s).
Definition set_input (i : list Z) (s : state) : state :=
  mkState (address s) (buf s) (fl s) (RSTSRC s) (LED_BOOTLOADER s) i (trace s).
Definition emit (e : event) (s : state) : state :=
  mkState (address s) (buf s) (fl s) (RSTSRC s) (LED_BOOTLOADER s) (input s)
          (trace s ++ [e]).

(** ** The command monad *)

(** A statement either completes, jumps to the label [cmd_bad], waits for
    ever in [cin] because no byte arrives, or accesses [buf] out of
    bounds. *)
Inductive result (A : Type) :=
| Ret (a : A) (s : state)
| CmdBad (s : state)
| Blocked (s : state)
| Fault (s : state).
Arguments Ret {A} a s.
Arguments CmdBad {A} s.
Arguments Blocked {A} s.
Arguments Fault {A} s.

Definition M (A : Type) : Type := state -> result A.

Definition ret {A} (a : A) : M A := fun s => Ret a s.

Definition bind {A C} (m : M A) (k : A -> M C) : M C := fun s =>
  match m s with
  | Ret a s' => k a s'
  | CmdBad s' => CmdBad s'
  | Blocked s' => Blocked s'
  | Fault s' => Fault s'
  end.

Notation "x <- m ;; k" := (bind m (fun x => k))
  (at level 100, m at next level, right associativity).
Notation "m ;; k" := (bind m (fun _ => k))
  (at level 100, right associativity).

Definition goto_cmd_bad {A} : M A := fun s => CmdBad s.

(** [cin()]: the next byte of the serial link; blocks when there is none. *)
Definition cin : M Z := fun s =>
  match input s with
  | [] => Blocked s
  | b :: rest => Ret b (set_input rest s)
  end.

(** [cout(b)] *)
Definition cout (b : Z) : M unit := fun s => Ret tt (emit (EvCout b) s).

(** [address++]: yields the old value. *)
Definition address_post_inc : M Z := fun s =>
  Ret (address s) (set_address (wrap16 (address s + 1)) s).

(** [buf[i] = v] *)
Definition buf_store (i v : Z) : M unit := fun s =>
  if (0 <=? i) && (i <? Z.of_nat (length (buf s)))
  then Ret tt (emit (EvBufStore i v) (set_buf (<[Z.to_nat i := v]> (buf s)) s))
  else Fault s.

(** [buf[i]] *)
Definition buf_load (i : Z) : M Z := fun s =>
  if 0 <=? i then
    match buf s !! Z.to_nat i with
    | Some v => Ret v s
    | None => Fault s
    end
  else Fault s.

Definition do_flash_write_byte (a v : Z) : M unit := fun s =>
  Ret tt (emit (EvFlashWrite a v) (set_fl (flash_write_byte (fl s) a v) s)).

Definition do_flash_read_byte (a : Z) : M Z := fun s =>
  let v := flash_read_byte (fl s) a in
  Ret v (emit (EvFlashRead a v) s).

Definition do_flash_erase_app : M unit := fun s =>
  Ret tt (emit EvEraseApp (set_fl (flash_erase_app (fl s)) s)).

Definition do_flash_erase_scratch : M unit := fun s =>
  Ret tt (emit EvEraseScratch (set_fl (flash_erase_scratch (fl s)) s)).

(** [for (i = start; i < count; i++) body], with [i] a [uint8_t]: [n] more
    rounds starting at index [i]. *)
Fixpoint for_rounds (n : nat) (i : Z) (body : Z -> M unit) : M unit :=
  match n with
  | O => ret tt
  | S n' => body i ;; for_rounds n' (wrap8 (i + 1)) body
  end.

(** [for (i = 0; i < count; i++) body] *)
Definition for_i (count : Z) (body : Z -> M unit) : M unit :=
  for_rounds (Z.to_nat count) 0 body.

(** ** The functions of bootloader.c *)

Definition sync_response : M unit :=
  cout PROTO_INSYNC ;;
  cout PROTO_OK.

Definition get_uint16 : M Z :=
  lo <- cin ;;
  let val := lo in
  hi <- cin ;;
  let val := Z.lor val (wrap16 (Z.shiftl hi 8)) in
  ret val.

(** The first [switch]: the common test for the end-of-command byte. *)
Definition common_eoc_test (c : Z) : M unit :=
  if (c =? PROTO_GET_SYNC) || (c =? PROTO_GET_DEVICE) || (c =? PROTO_CHIP_ERASE)
     || (c =? PROTO_PARAM_ERASE) || (c =? PROTO_READ_FLASH)
  then
    t <- cin ;;
    if negb (t =? PROTO_EOC) then goto_cmd_bad else ret tt
  else ret tt.

Definition case_GET_DEVICE : M unit :=
  cout BOARD_ID ;;
  cout board_frequency.

Definition case_LOAD_ADDRESS : M unit :=
  a <- get_uint16 ;;
  (fun s => Ret tt (set_address a s)) ;;
  t <- cin ;;
  if negb (t =? PROTO_EOC) then goto_cmd_bad else ret tt.

Definition case_PROG_FLASH : M unit :=
  c <- cin ;;
  t <- cin ;;
  if negb (t =? PROTO_EOC) then goto_cmd_bad else
  a <- address_post_inc ;;
  do_flash_write_byte a c.

Definition case_READ_FLASH : M unit :=
  a <- address_post_inc ;;
  c <- do_flash_read_byte a ;;
  cout c.

Definition case_PROG_MULTI : M unit :=
  count <- cin ;;
  if count >? PROTO_PROG_MULTI_MAX then goto_cmd_bad else
  for_i count (fun i => b <- cin ;; buf_store i b) ;;
  t <- cin ;;
  if negb (t =? PROTO_EOC) then goto_cmd_bad else
  for_i count (fun i =>
    v <- buf_load i ;;
    a <- address_post_inc ;;
    do_flash_write_byte a v).

Definition case_READ_MULTI : M unit :=
  count <- cin ;;
  t <- cin ;;
  if negb (t =? PROTO_EOC) then goto_cmd_bad else
  for_i count (fun i =>
    a <- address_post_inc ;;
    c <- do_flash_read_byte a ;;
    cout c).

(** The write to [RSTSRC] asks for a software reset. The model records the
    write and follows the code on to [cmd_bad]; on the device the reset
    ends the run there, so of a run of the loop only the turns up to and
    including the first one that executes [REBOOT] are turns of the
    device. *)
Definition case_REBOOT : M unit :=
  (fun s => Ret tt (set_RSTSRC (Z.lor (RSTSRC s) (Z.shiftl 1 4)) s)) ;;
  goto_cmd_bad.

(** The second [switch]. *)
Definition dispatch (c : Z) : M unit :=
  if c =? PROTO_GET_SYNC then ret tt
  else if c =? PROTO_GET_DEVICE then case_GET_DEVICE
  else if c =? PROTO_CHIP_ERASE then do_flash_erase_app
  else if c =? PROTO_PARAM_ERASE then do_flash_erase_scratch
  else if c =? PROTO_LOAD_ADDRESS then case_LOAD_ADDRESS
  else if c =? PROTO_PROG_FLASH then case_PROG_FLASH
  else if c =? PROTO_READ_FLASH then case_READ_FLASH
  else if c =? PROTO_PROG_MULTI then case_PROG_MULTI
  else if c =? PROTO_READ_MULTI then case_READ_MULTI
  else if c =? PROTO_REBOOT then case_REBOOT
  else goto_cmd_bad.

(** The body of the [for (;;)] loop up to the labels. *)
Definition command : M unit :=
  (fun s => Ret tt (set_LED LED_ON s)) ;;
  c <- cin ;;
  (fun s => Ret tt (set_LED LED_OFF s)) ;;
  common_eoc_test c ;;
  dispatch c.

(** One turn of the loop: [cmd_ok] sends the sync response, [cmd_bad]
    sends nothing, and both [continue]. *)
Definition iteration : M unit := fun s =>
  match command s with
  | Ret _ s' => sync_response s'
  | CmdBad s' => Ret tt s'
  | Blocked s' => Blocked s'
  | Fault s' => Fault s'
  end.

(** The first [n] turns of the main loop. *)
Fixpoint main_loop (n : nat) : M unit :=
  match n with
  | O => ret tt
  | S n' => iteration ;; main_loop n'
  end.

(** The test that guards the jump to the application. [rstsrc] is what
    reading the SFR [RSTSRC] yields, [button] the level of
    [BUTTON_BOOTLOAD]. *)
Definition boot_gate (rstsrc : Z) (f : flash) (button : Z) : bool :=
  (Z.land rstsrc (Z.shiftl 1 6) =? 0)
  && flash_app_valid f
  && negb (button =? BUTTON_ACTIVE).

(** How [bootloader()] proceeds after the hardware is set up. *)
Inductive boot_outcome :=
| JumpToApp (BOARD_FREQUENCY_REG BOARD_BL_VERSION_REG entry : Z)
| CommandLoop (r : result unit).

(** The loop starts with [address = 0]. *)
Definition loop_entry (rstsrc : Z) (f : flash) (b : list Z) (inp : list Z) : state :=
  mkState 0 b f rstsrc LED_ON inp [].

(** [bootloader()], following the command loop for [n] turns. *)
Definition bootloader (rstsrc button : Z) (f : flash) (b : list Z)
    (inp : list Z) (n : nat) : boot_outcome :=
  if boot_gate rstsrc f button
  then JumpToApp board_frequency BL_VERSION FLASH_APP_START
  else CommandLoop (main_loop n (loop_entry rstsrc f b inp)).

(** ** Vocabulary of the properties *)

(** The ten opcodes the second [switch] has a [case] for. *)
Definition opcodes : list Z :=
  [PROTO_GET_SYNC; PROTO_GET_DEVICE; PROTO_CHIP_ERASE; PROTO_PARAM_ERASE;
   PROTO_LOAD_ADDRESS; PROTO_PROG_FLASH; PROTO_READ_FLASH; PROTO_PROG_MULTI;
   PROTO_READ_MULTI; PROTO_REBOOT].

(** C accepts a [switch] only when its [case] labels are pairwise distinct. *)
Definition distinct_opcodes : Prop := NoDup opcodes.

(** [buf] has the size it is declared with. *)
Definition buf_declared (s : state) : Prop :=
  Z.of_nat (length (buf s)) = PROTO_PROG_MULTI_MAX.

(** The cells [a], [a+1], ... (modulo 2^16) paired with the bytes of
    [data], in order. *)
Definition sequential (a : Z) (data : list Z) : list (Z * Z) :=
  imap (fun k d => (wrap16 (a + Z.of_nat k), d)) data.

(** The flash after programming the cells of [writes], first to last. *)
Definition program (f : flash) (writes : list (Z * Z)) : flash :=
  foldl (fun f' w => flash_write_byte f' w.1 w.2) f writes.

Definition write_events (writes : list (Z * Z)) : list event :=
  (fun w => EvFlashWrite w.1 w.2) <$> writes.

(** Reading the [n] cells from [a] on, each byte sent as soon as read. *)
Definition read_events (f : flash) (a n : Z) : list event :=
  mjoin ((fun k => let v := flash_read_byte f (wrap16 (a + k)) in
                   [EvFlashRead (wrap16 (a + k)) v; EvCout v]) <$> seqZ 0 n).

Definition ack : list event := [EvCout PROTO_INSYNC; EvCout PROTO_OK].

(** After the opcode byte the LED is off and the byte is consumed. *)
Definition opcode_read (rest : list Z) (s : state) : state :=
  mkState (address s) (buf s) (fl s) (RSTSRC s) LED_OFF rest (trace s).


(** The bodies of the two loops of [PROG_MULTI]. *)
Definition stage_body (j : Z) : M unit := b <- cin ;; buf_store j b.

Definition write_body (j : Z) : M unit :=
  v <- buf_load j ;; a <- address_post_inc ;; do_flash_write_byte a v.

(** The events of the run from [s] to [s']. *)
Definition events_since (s s' : state) (evs : list event) : Prop :=
  trace s' = trace s ++ evs.

(** The state a result carries, whatever the result. *)
Definition final {A} (r : result A) : state :=
  match r with
  | Ret _ s | CmdBad s | Blocked s | Fault s => s
  end.

Definition is_fault {A} (r : result A) : bool :=
  match r with
  | Fault _ => true
  | _ => false
  end.

(** From [s], one turn of the loop consumes [frame] and sends [out]. *)
Definition replies (s : state) (frame out : list Z) : Prop :=
  forall rest, input s = frame ++ rest ->
  exists s' evs, iteration s = Ret tt s' /\ events_since s s' evs
                 /\ outputs evs = out /\ input s' = rest.

(** 16-bit unsigned addition: [a'] is [a + n] reduced modulo 2^16, which
    past 0xFFFF lands on the low addresses. *)
Definition cursor_advanced (a n a' : Z) : Prop :=
  a' = (a + n) mod 65536 /\ (65535 < a + n -> a' = a + n - 65536).

(** What holds of every state the loop reaches: [address] is a
    [uint16_t], [buf] has its declared size, and the link delivers bytes. *)
Definition well_formed (s : state) : Prop :=
  is_uint16 (address s) /\ buf_declared s /\ Forall is_uint8 (input s).

(** The postcondition that asks nothing. *)
Definition any {A} (_ : A) : Prop := True.

(** [m] keeps states well formed, and what it returns satisfies [Q]. *)
Definition keeps {A} (Q : A -> Prop) (m : M A) : Prop :=
  forall s, well_formed s ->
  well_formed (final (m s)) /\ forall a s', m s = Ret a s' -> Q a.

End Bootloader.

Notation "x <- m ;; k" := (bind m (fun x => k))
  (at level 100, m at next level, right associativity).
Notation "m ;; k" := (bind m (fun _ => k))
  (at level 100, right associativity).

Arguments Ret {F A} a s.
Arguments CmdBad {F A} s.
Arguments Blocked {F A} s.
Arguments Fault {F A} s.

(** ** A configuration to run the model on *)

(** The properties below hold for every assignment of the constants whose
    opcodes are pairwise distinct. This one, with a staging buffer of 32
    bytes, serves to run the model on concrete frames. *)
#[local] Instance sample_protocol : Protocol := {|
  PROTO_OK := 0x10;
  PROTO_INSYNC := 0x12;
  PROTO_EOC := 0x20;
  PROTO_GET_SYNC := 0x21;
  PROTO_GET_DEVICE := 0x22;
  PROTO_CHIP_ERASE := 0x23;
  PROTO_LOAD_ADDRESS := 0x24;
  PROTO_PROG_FLASH := 0x25;
  PROTO_READ_FLASH := 0x26;
  PROTO_PROG_MULTI := 0x27;
  PROTO_READ_MULTI := 0x28;
  PROTO_PARAM_ERASE := 0x29;
  PROTO_REBOOT := 0x30;
  PROTO_PROG_MULTI_MAX := 32
|}.

#[local] Instance sample_board : Board := {|
  BOARD_ID := 0x4e;
  board_frequency := 0x43;
  BL_VERSION := 1;
  BUTTON_ACTIVE := 0;
  LED_ON := 0;
  LED_OFF := 1;
  FLASH_APP_START := 0x400
|}.

(** A flash driver over a list of programmed cells, most recent first; a
    cell that was never programmed reads as 0xFF. *)
Fixpoint cell_lookup (cells : list (Z * Z)) (a : Z) : Z :=
  match cells with
  | [] => 0xFF
  | (a', v) :: rest => if a' =? a then v else cell_lookup rest a
  end.

#[local] Instance sample_flash : FlashDriver := {|
  flash := list (Z * Z);
  flash_app_valid := fun cells => negb (cell_lookup cells 0x400 =? 0xFF);
  flash_erase_app := fun cells => filter (fun c => c.1 <? 0x400) cells;
  flash_erase_scratch := fun cells => filter (fun c => 0x400 <=? c.1) cells;
  flash_write_byte := fun cells a v => (a, v) :: cells;
  flash_read_byte := cell_lookup
|}.

(** The state at loop entry with an empty flash and a zeroed buffer. *)
Definition sample_state (inp : list Z) : state :=
  loop_entry 0 [] (replicate 32 0) inp.

(** The same with [address] at [a]. *)
Definition sample_state_at (a : Z) (inp : list Z) : state :=
  mkState a (replicate 32 0) [] 0 LED_ON inp [].

(** ** Vocabulary for whole turns and runs of the loop *)

Section Runs.

Context {P : Protocol} {B : Board} {F : FlashDriver}.

(** The events that change the flash content. *)
Definition is_flash_change (e : event) : bool :=
  match e with
  | EvEraseApp | EvEraseScratch | EvFlashWrite _ _ => true
  | _ => false
  end.

(** From [s] to [s'] nothing was sent and the flash driver was not called. *)
Definition quiet (s s' : state) : Prop :=
  fl s' = fl s
  /\ exists evs, trace s' = trace s ++ evs /\ outputs evs = [] /\ flash_ops evs = [].

(** From [s] to [s'] the flash content was read at most. *)
Definition flash_kept (s s' : state) : Prop :=
  fl s' = fl s
  /\ exists evs, trace s' = trace s ++ evs
                 /\ Forall (fun e => is_flash_change e = false) evs.

Definition address_kept (s s' : state) : Prop := address s' = address s.

(** No byte is put back on the link. *)
Definition input_shrinks (s s' : state) : Prop :=
  (length (input s') <= length (input s))%nat.

(** What is left on the link is the end of what was there. *)
Definition input_suffix (s s' : state) : Prop :=
  input s' `suffix_of` input s.

(** No reset was asked for. *)
Definition RSTSRC_kept (s s' : state) : Prop := RSTSRC s' = RSTSRC s.

(** Whatever [m] does from whatever state, [R] relates the state it
    starts in to the state it ends in. *)
Definition steps {A} (R : state -> state -> Prop) (m : M A) : Prop :=
  forall s, R s (final (m s)).

(** From [s], [m] runs to its end. *)
Definition completes {A} (m : M A) (s : state) : Prop :=
  exists a s' evs, m s = Ret a s' /\ trace s' = trace s ++ evs.

(** From [s], [m] sends nothing, leaves the flash alone and stays inside
    [buf]. *)
Definition inert {A} (m : M A) (s : state) : Prop :=
  quiet s (final (m s)) /\ is_fault (m s) = false.

Definition completes_or_inert {A} (m : M A) : Prop :=
  forall s, well_formed s -> completes m s \/ inert m s.

Definition silent {A} (m : M A) : Prop := forall s, inert m s.

Definition total {A} (m : M A) : Prop := forall s, completes m s.

(** [m] waits in [cin] only when the link has nothing left. *)
Definition blocks_on_empty {A} (m : M A) : Prop :=
  forall s s', m s = Blocked s' -> input s' = [].

(** The frames a host sends to program [data] one byte at a time. *)
Definition prog_flash_frames (data : list Z) : list Z :=
  data ≫= (fun d => [PROTO_PROG_FLASH; d; PROTO_EOC]).

(** [n] single-byte read requests. *)
Definition read_flash_frames (n : nat) : list Z :=
  mjoin (replicate n [PROTO_READ_FLASH; PROTO_EOC]).

(** [n] sync requests. *)
Definition get_sync_frames (n : nat) : list Z :=
  mjoin (replicate n [PROTO_GET_SYNC; PROTO_EOC]).

(** What a flash driver is expected to do for cells that can be
    programmed: a cell reads back what was written last, and writing one
    cell leaves the others. *)
Definition reads_back_writes : Prop :=
  (forall f a v, flash_read_byte (flash_write_byte f a v) a = v)
  /\ (forall f a a' v, a <> a' ->
      flash_read_byte (flash_write_byte f a v) a' = flash_read_byte f a').

End Runs.

(** * Properties *)

Section Properties.

Context {P : Protocol} {B : Board} {F : FlashDriver}.

(** ** Machine integers *)

Lemma wrap16_idem x : wrap16 (wrap16 x) = wrap16 x.
Proof. unfold wrap16. apply Z.mod_mod. lia. Qed.

Lemma wrap16_small x : is_uint16 x -> wrap16 x = x.
Proof. unfold wrap16, is_uint16. intros. apply Z.mod_small. lia. Qed.

Lemma wrap16_range x : is_uint16 (wrap16 x).
Proof. unfold wrap16, is_uint16. apply Z.mod_pos_bound. lia. Qed.

Lemma wrap16_succ a k : wrap16 (wrap16 (a + 1) + k) = wrap16 (a + (k + 1)).
Proof.
  unfold wrap16. rewrite Zplus_mod_idemp_l. f_equal. lia.
Qed.

Lemma wrap8_small x : is_uint8 x -> wrap8 x = x.
Proof. unfold wrap8, is_uint8. intros. apply Z.mod_small. lia. Qed.

(** The little-endian decoding of [get_uint16] needs no truncation. *)
Lemma shift_high_byte hi : is_uint8 hi -> wrap16 (Z.shiftl hi 8) = Z.shiftl hi 8.
Proof.
  unfold is_uint8. intros Hhi. apply wrap16_small. unfold is_uint16.
  rewrite Z.shiftl_mul_pow2 by lia. change (2 ^ 8) with 256. lia.
Qed.

Lemma uint16_of_bytes lo hi :
  is_uint8 lo -> is_uint8 hi -> is_uint16 (Z.lor lo (Z.shiftl hi 8)).
Proof.
  unfold is_uint8, is_uint16. intros Hlo Hhi.
  assert (Hs : 0 <= Z.shiftl hi 8 < 2 ^ 16).
  { rewrite Z.shiftl_mul_pow2 by lia. change (2 ^ 8) with 256.
    change (2 ^ 16) with 65536. lia. }
  split.
  - apply Z.lor_nonneg. lia.
  - change 65536 with (2 ^ 16).
    destruct (Z.eq_dec (Z.lor lo (Z.shiftl hi 8)) 0) as [->|Hnz]; [lia|].
    apply Z.log2_lt_pow2.
    + assert (0 <= Z.lor lo (Z.shiftl hi 8)) by (apply Z.lor_nonneg; lia). lia.
    + rewrite Z.log2_lor by lia.
      apply Z.max_lub_lt.
      * destruct (Z.eq_dec lo 0) as [->|]; [simpl; lia|].
        apply Z.log2_lt_pow2; [lia|]. change (2 ^ 16) with 65536. lia.
      * destruct (Z.eq_dec (Z.shiftl hi 8) 0) as [->|]; [simpl; lia|].
        apply Z.log2_lt_pow2; lia.
Qed.

(** ** The two [switch] statements, opcode by opcode *)

Ltac split_distinct H :=
  unfold distinct_opcodes, opcodes in H;
  repeat (apply NoDup_cons in H; destruct H as [? H]);
  repeat match goal with
         | Hn : _ ∉ _ :: _ |- _ => apply not_elem_of_cons in Hn; destruct Hn as [? Hn]
         end.

Ltac decide_labels :=
  repeat match goal with
         | |- context [?x =? ?x] => rewrite (Z.eqb_refl x)
         | |- context [?x =? ?y] =>
             rewrite (proj2 (Z.eqb_neq x y)) by (assumption || (apply not_eq_sym; assumption))
         end.

Ltac switch_on H := split_distinct H; decide_labels; try reflexivity.

Lemma common_eoc_test_checked c :
  c = PROTO_GET_SYNC \/ c = PROTO_GET_DEVICE \/ c = PROTO_CHIP_ERASE
  \/ c = PROTO_PARAM_ERASE \/ c = PROTO_READ_FLASH ->
  common_eoc_test c =
  (t <- cin ;; if negb (t =? PROTO_EOC) then goto_cmd_bad else ret tt).
Proof.
  unfold common_eoc_test.
  intros [-> | [-> | [-> | [-> | ->]]]]; rewrite Z.eqb_refl;
    rewrite ?orb_true_r; reflexivity.
Qed.

Lemma common_eoc_test_unchecked c :
  c <> PROTO_GET_SYNC -> c <> PROTO_GET_DEVICE -> c <> PROTO_CHIP_ERASE ->
  c <> PROTO_PARAM_ERASE -> c <> PROTO_READ_FLASH ->
  common_eoc_test c = ret tt.
Proof.
  unfold common_eoc_test. intros. decide_labels. reflexivity.
Qed.

Lemma dispatch_GET_SYNC : dispatch PROTO_GET_SYNC = ret tt.
Proof. unfold dispatch. decide_labels. reflexivity. Qed.

Lemma dispatch_GET_DEVICE :
  distinct_opcodes -> dispatch PROTO_GET_DEVICE = case_GET_DEVICE.
Proof. intros H. unfold dispatch. switch_on H. Qed.

Lemma dispatch_CHIP_ERASE :
  distinct_opcodes -> dispatch PROTO_CHIP_ERASE = do_flash_erase_app.
Proof. intros H. unfold dispatch. switch_on H. Qed.

Lemma dispatch_PARAM_ERASE :
  distinct_opcodes -> dispatch PROTO_PARAM_ERASE = do_flash_erase_scratch.
Proof. intros H. unfold dispatch. switch_on H. Qed.

Lemma dispatch_LOAD_ADDRESS :
  distinct_opcodes -> dispatch PROTO_LOAD_ADDRESS = case_LOAD_ADDRESS.
Proof. intros H. unfold dispatch. switch_on H. Qed.

Lemma dispatch_PROG_FLASH :
  distinct_opcodes -> dispatch PROTO_PROG_FLASH = case_PROG_FLASH.
Proof. intros H. unfold dispatch. switch_on H. Qed.

Lemma dispatch_READ_FLASH :
  distinct_opcodes -> dispatch PROTO_READ_FLASH = case_READ_FLASH.
Proof. intros H. unfold dispatch. switch_on H. Qed.

Lemma dispatch_PROG_MULTI :
  distinct_opcodes -> dispatch PROTO_PROG_MULTI = case_PROG_MULTI.
Proof. intros H. unfold dispatch. switch_on H. Qed.

Lemma dispatch_READ_MULTI :
  distinct_opcodes -> dispatch PROTO_READ_MULTI = case_READ_MULTI.
Proof. intros H. unfold dispatch. switch_on H. Qed.

Lemma dispatch_REBOOT :
  distinct_opcodes -> dispatch PROTO_REBOOT = case_REBOOT.
Proof. intros H. unfold dispatch. switch_on H. Qed.

Lemma dispatch_unknown c : c ∉ opcodes -> dispatch c = goto_cmd_bad.
Proof.
  unfold opcodes. intros H.
  repeat (apply not_elem_of_cons in H; destruct H as [? H]).
  unfold dispatch. decide_labels. reflexivity.
Qed.

(** ** Single frames *)

Lemma command_opcode s c rest :
  input s = c :: rest ->
  command s = (common_eoc_test c ;; dispatch c) (opcode_read rest s).
Proof.
  intros H. unfold command, bind at 1 2 3, cin at 1. simpl. rewrite H. reflexivity.
Qed.

Ltac run_frame Hin :=
  unfold iteration; rewrite (command_opcode _ _ _ Hin).

Ltac unfold_all :=
  unfold sync_response, get_uint16, case_GET_DEVICE, case_LOAD_ADDRESS,
    case_PROG_FLASH, case_READ_FLASH, case_REBOOT, do_flash_write_byte,
    do_flash_read_byte, do_flash_erase_app, do_flash_erase_scratch,
    address_post_inc, cout, cin, ret, goto_cmd_bad, bind, opcode_read, ack,
    set_address, set_buf, set_fl, set_RSTSRC, set_LED, set_input, emit;
  simpl.

Ltac eoc_ok := rewrite ?Z.eqb_refl; simpl.

Ltac eoc_bad Ht :=
  rewrite ?(proj2 (Z.eqb_neq _ _) Ht); simpl.

Ltac finish := rewrite <- ?app_assoc; reflexivity.

Lemma run_GET_SYNC s rest :
  input s = PROTO_GET_SYNC :: PROTO_EOC :: rest ->
  iteration s =
  Ret tt (mkState (address s) (buf s) (fl s) (RSTSRC s) LED_OFF rest
                  (trace s ++ ack)).
Proof.
  intros Hin. run_frame Hin.
  rewrite common_eoc_test_checked by tauto. rewrite dispatch_GET_SYNC.
  unfold_all. eoc_ok. finish.
Qed.

Lemma run_GET_DEVICE s rest :
  distinct_opcodes ->
  input s = PROTO_GET_DEVICE :: PROTO_EOC :: rest ->
  iteration s =
  Ret tt (mkState (address s) (buf s) (fl s) (RSTSRC s) LED_OFF rest
                  (trace s ++ [EvCout BOARD_ID; EvCout board_frequency] ++ ack)).
Proof.
  intros Hd Hin. run_frame Hin.
  rewrite common_eoc_test_checked by tauto. rewrite dispatch_GET_DEVICE by assumption.
  unfold_all. eoc_ok. finish.
Qed.

Lemma run_CHIP_ERASE s rest :
  distinct_opcodes ->
  input s = PROTO_CHIP_ERASE :: PROTO_EOC :: rest ->
  iteration s =
  Ret tt (mkState (address s) (buf s) (flash_erase_app (fl s)) (RSTSRC s) LED_OFF
                  rest (trace s ++ [EvEraseApp] ++ ack)).
Proof.
  intros Hd Hin. run_frame Hin.
  rewrite common_eoc_test_checked by tauto. rewrite dispatch_CHIP_ERASE by assumption.
  unfold_all. eoc_ok. finish.
Qed.

Lemma run_PARAM_ERASE s rest :
  distinct_opcodes ->
  input s = PROTO_PARAM_ERASE :: PROTO_EOC :: rest ->
  iteration s =
  Ret tt (mkState (address s) (buf s) (flash_erase_scratch (fl s)) (RSTSRC s)
                  LED_OFF rest (trace s ++ [EvEraseScratch] ++ ack)).
Proof.
  intros Hd Hin. run_frame Hin.
  rewrite common_eoc_test_checked by tauto. rewrite dispatch_PARAM_ERASE by assumption.
  unfold_all. eoc_ok. finish.
Qed.

Lemma run_READ_FLASH s rest :
  distinct_opcodes ->
  input s = PROTO_READ_FLASH :: PROTO_EOC :: rest ->
  iteration s =
  Ret tt (mkState (wrap16 (address s + 1)) (buf s) (fl s) (RSTSRC s) LED_OFF rest
                  (trace s ++
                   [EvFlashRead (address s) (flash_read_byte (fl s) (address s));
                    EvCout (flash_read_byte (fl s) (address s))] ++ ack)).
Proof.
  intros Hd Hin. run_frame Hin.
  rewrite common_eoc_test_checked by tauto. rewrite dispatch_READ_FLASH by assumption.
  unfold_all. eoc_ok. finish.
Qed.


Ltac unchecked H :=
  rewrite common_eoc_test_unchecked
    by (let Hd := fresh in pose proof H as Hd; split_distinct Hd;
        first [assumption | apply not_eq_sym; assumption]).

Lemma run_LOAD_ADDRESS s lo hi rest :
  distinct_opcodes ->
  input s = PROTO_LOAD_ADDRESS :: lo :: hi :: PROTO_EOC :: rest ->
  iteration s =
  Ret tt (mkState (Z.lor lo (wrap16 (Z.shiftl hi 8))) (buf s) (fl s) (RSTSRC s)
                  LED_OFF rest (trace s ++ ack)).
Proof.
  intros Hd Hin. run_frame Hin. unchecked Hd.
  rewrite dispatch_LOAD_ADDRESS by assumption.
  unfold_all. eoc_ok. finish.
Qed.

Lemma run_LOAD_ADDRESS_bad_eoc s lo hi t rest :
  distinct_opcodes ->
  t <> PROTO_EOC ->
  input s = PROTO_LOAD_ADDRESS :: lo :: hi :: t :: rest ->
  iteration s =
  Ret tt (mkState (Z.lor lo (wrap16 (Z.shiftl hi 8))) (buf s) (fl s) (RSTSRC s)
                  LED_OFF rest (trace s)).
Proof.
  intros Hd Ht Hin. run_frame Hin. unchecked Hd.
  rewrite dispatch_LOAD_ADDRESS by assumption.
  unfold_all. eoc_bad Ht. reflexivity.
Qed.

Lemma run_PROG_FLASH s d rest :
  distinct_opcodes ->
  input s = PROTO_PROG_FLASH :: d :: PROTO_EOC :: rest ->
  iteration s =
  Ret tt (mkState (wrap16 (address s + 1)) (buf s)
                  (flash_write_byte (fl s) (address s) d) (RSTSRC s) LED_OFF rest
                  (trace s ++ [EvFlashWrite (address s) d] ++ ack)).
Proof.
  intros Hd Hin. run_frame Hin. unchecked Hd.
  rewrite dispatch_PROG_FLASH by assumption.
  unfold_all. eoc_ok. finish.
Qed.


Lemma run_REBOOT s rest :
  distinct_opcodes ->
  input s = PROTO_REBOOT :: rest ->
  iteration s =
  Ret tt (mkState (address s) (buf s) (fl s) (Z.lor (RSTSRC s) (Z.shiftl 1 4))
                  LED_OFF rest (trace s)).
Proof.
  intros Hd Hin. run_frame Hin. unchecked Hd.
  rewrite dispatch_REBOOT by assumption. unfold_all. reflexivity.
Qed.

Lemma run_unknown s c rest :
  c ∉ opcodes ->
  input s = c :: rest ->
  iteration s =
  Ret tt (mkState (address s) (buf s) (fl s) (RSTSRC s) LED_OFF rest (trace s)).
Proof.
  intros Hc Hin. run_frame Hin.
  rewrite dispatch_unknown by assumption.
  rewrite common_eoc_test_unchecked; [unfold_all; reflexivity | | | | |];
    intros ->; apply Hc; unfold opcodes; rewrite !elem_of_cons; auto 20.
Qed.

(** ** The loops of the multi-byte commands *)

Lemma state_eta (s : state) :
  s = mkState (address s) (buf s) (fl s) (RSTSRC s) (LED_BOOTLOADER s) (input s)
              (trace s).
Proof. destruct s; reflexivity. Qed.

Lemma sequential_cons a d data :
  is_uint16 a ->
  sequential a (d :: data) = (a, d) :: sequential (wrap16 (a + 1)) data.
Proof.
  intros Ha. unfold sequential. rewrite imap_cons. simpl.
  rewrite Z.add_0_r, (wrap16_small a Ha). f_equal.
  apply imap_ext. intros k x _. simpl.
  rewrite wrap16_succ. do 2 f_equal. lia.
Qed.

Lemma read_events_succ f a n :
  is_uint16 a ->
  read_events f a (Z.of_nat (S n)) =
  [EvFlashRead a (flash_read_byte f a); EvCout (flash_read_byte f a)]
  ++ read_events f (wrap16 (a + 1)) (Z.of_nat n).
Proof.
  intros Ha. unfold read_events.
  rewrite seqZ_cons by lia. simpl.
  rewrite Z.add_0_r, (wrap16_small a Ha). do 2 f_equal.
  replace (Z.pred (Z.of_nat (S n))) with (Z.of_nat n) by lia.
  change (Z.succ 0) with (1 + 0). rewrite <- fmap_add_seqZ.
  rewrite <- list_fmap_compose. f_equal.
  apply list_fmap_ext. intros _ k _. simpl.
  rewrite wrap16_succ. replace (a + (k + 1)) with (a + (1 + k)) by lia.
  reflexivity.
Qed.

(** [for_rounds] takes the turns of the C loop: with [count] a [uint8_t],
    the loop at index [i] runs the body and goes on at [i + 1] while
    [i < count], and ends otherwise. *)
Lemma for_rounds_test count i body s :
  is_uint8 count -> 0 <= i ->
  for_rounds (Z.to_nat (count - i)) i body s =
  if i <? count
  then (body i ;; for_rounds (Z.to_nat (count - wrap8 (i + 1))) (wrap8 (i + 1)) body) s
  else Ret tt s.
Proof.
  unfold is_uint8. intros Hc Hi. destruct (Z.ltb_spec i count) as [Hlt|Hge].
  - rewrite (wrap8_small (i + 1)) by (unfold is_uint8; lia).
    replace (Z.to_nat (count - i)) with (S (Z.to_nat (count - (i + 1)))) by lia.
    simpl. rewrite wrap8_small by (unfold is_uint8; lia). reflexivity.
  - replace (Z.to_nat (count - i)) with 0%nat by lia. reflexivity.
Qed.

(** The staging loop of [PROG_MULTI] fills [buf] from index [i] on. *)
Lemma stage_rounds data : forall i s pre post rest,
  0 <= i -> i + Z.of_nat (length data) <= 255 ->
  input s = data ++ rest ->
  buf s = pre ++ post -> Z.of_nat (length pre) = i ->
  (length data <= length post)%nat ->
  for_rounds (length data) i (fun j => b <- cin ;; buf_store j b) s =
  Ret tt (mkState (address s) (pre ++ data ++ drop (length data) post) (fl s)
                  (RSTSRC s) (LED_BOOTLOADER s) rest
                  (trace s ++ imap (fun k d => EvBufStore (i + Z.of_nat k) d) data)).
Proof.
  induction data as [|d data IH]; intros i s pre post rest Hi Hn Hin Hbuf Hpre Hlen.
  - simpl in *. unfold ret. rewrite (state_eta s) at 1.
    rewrite Hin, Hbuf, app_nil_r. reflexivity.
  - destruct post as [|p post]; [simpl in Hlen; lia|].
    simpl length in *. simpl for_rounds.
    unfold bind at 1. unfold bind at 1. unfold cin at 1. rewrite Hin. simpl.
    unfold buf_store at 1. simpl. rewrite Hbuf, length_app. simpl length.
    replace ((0 <=? i) && (i <? Z.of_nat (length pre + S (length post)))) with true
      by (symmetry; apply andb_true_intro; split; [apply Z.leb_le | apply Z.ltb_lt]; lia).
    replace (Z.to_nat i) with (length pre + 0)%nat by lia.
    rewrite insert_app_r. simpl.
    rewrite wrap8_small by (unfold is_uint8; lia).
    rewrite (IH (i + 1) _ (pre ++ [d]) post rest); simpl; try lia.
    + unfold emit, set_buf, set_input. simpl. f_equal. f_equal.
      * rewrite <- app_assoc. reflexivity.
      * rewrite <- app_assoc. simpl. do 2 f_equal.
        { f_equal. lia. }
        { apply imap_ext. intros k x _. simpl. f_equal. lia. }
    + reflexivity.
    + rewrite <- app_assoc. reflexivity.
    + rewrite length_app. simpl. lia.
Qed.

(** The programming loop of [PROG_MULTI] writes [buf] from index [i] on. *)
Lemma write_rounds data : forall i s pre post,
  0 <= i -> i + Z.of_nat (length data) <= 255 ->
  buf s = pre ++ data ++ post -> Z.of_nat (length pre) = i ->
  is_uint16 (address s) ->
  for_rounds (length data) i
    (fun j => v <- buf_load j ;; a <- address_post_inc ;; do_flash_write_byte a v) s =
  Ret tt (mkState (wrap16 (address s + Z.of_nat (length data))) (buf s)
                  (program (fl s) (sequential (address s) data))
                  (RSTSRC s) (LED_BOOTLOADER s) (input s)
                  (trace s ++ write_events (sequential (address s) data))).
Proof.
  induction data as [|d data IH]; intros i s pre post Hi Hn Hbuf Hpre Ha.
  - simpl. unfold ret. rewrite Z.add_0_r, (wrap16_small _ Ha), app_nil_r.
    rewrite (state_eta s) at 1. reflexivity.
  - simpl length in *. rewrite (sequential_cons _ _ _ Ha).
    match goal with |- _ = ?R => set (rhs := R) end.
    simpl for_rounds.
    unfold bind at 1. unfold bind at 1. unfold buf_load at 1.
    replace (0 <=? i) with true by (symmetry; apply Z.leb_le; lia).
    rewrite Hbuf. replace (Z.to_nat i) with (length pre + 0)%nat by lia.
    rewrite lookup_app_r by lia.
    replace (length pre + 0 - length pre)%nat with 0%nat by lia. simpl.
    rewrite wrap8_small by (unfold is_uint8; lia).
    rewrite (IH (i + 1) _ (pre ++ [d]) post); simpl; try lia.
    + subst rhs. simpl. f_equal. f_equal.
      * rewrite wrap16_succ. f_equal. lia.
      * rewrite <- app_assoc. reflexivity.
    + rewrite Hbuf, <- app_assoc. reflexivity.
    + rewrite length_app. simpl. lia.
    + apply wrap16_range.
Qed.

(** The loop of [READ_MULTI] reads and sends [n] bytes. *)
Lemma read_rounds n : forall i s,
  is_uint16 (address s) ->
  for_rounds n i
    (fun _ => a <- address_post_inc ;; c <- do_flash_read_byte a ;; cout c) s =
  Ret tt (mkState (wrap16 (address s + Z.of_nat n)) (buf s) (fl s)
                  (RSTSRC s) (LED_BOOTLOADER s) (input s)
                  (trace s ++ read_events (fl s) (address s) (Z.of_nat n))).
Proof.
  induction n as [|n IH]; intros i s Ha.
  - simpl. unfold ret, read_events. simpl.
    rewrite Z.add_0_r, (wrap16_small _ Ha), app_nil_r.
    rewrite (state_eta s) at 1. reflexivity.
  - simpl for_rounds. unfold bind at 1. unfold_all.
    rewrite IH by (simpl; apply wrap16_range). simpl.
    rewrite (read_events_succ _ _ _ Ha). f_equal. f_equal.
    + rewrite wrap16_succ. f_equal. lia.
    + rewrite <- !app_assoc. reflexivity.
Qed.

(** ** Multi-byte frames *)

Lemma bind_ret {A C} (m : M A) (k : A -> M C) s a s' :
  m s = Ret a s' -> bind m k s = k a s'.
Proof. intros H. unfold bind. rewrite H. reflexivity. Qed.

Lemma cin_cons s b rest :
  input s = b :: rest -> cin s = Ret b (set_input rest s).
Proof. intros H. unfold cin. rewrite H. reflexivity. Qed.

Lemma run_READ_MULTI s n rest :
  distinct_opcodes ->
  0 <= n -> is_uint16 (address s) ->
  input s = PROTO_READ_MULTI :: n :: PROTO_EOC :: rest ->
  iteration s =
  Ret tt (mkState (wrap16 (address s + n)) (buf s) (fl s) (RSTSRC s) LED_OFF rest
                  (trace s ++ read_events (fl s) (address s) n ++ ack)).
Proof.
  intros Hd Hn Ha Hin. run_frame Hin. unchecked Hd.
  rewrite dispatch_READ_MULTI by assumption.
  unfold bind at 1, ret at 1, case_READ_MULTI.
  erewrite bind_ret by (apply cin_cons; reflexivity).
  erewrite bind_ret by (apply cin_cons; reflexivity).
  eoc_ok. unfold for_i. rewrite read_rounds by exact Ha.
  unfold_all. rewrite Z2Nat.id by lia. finish.
Qed.


Lemma run_PROG_MULTI_oversize s count rest :
  distinct_opcodes ->
  count > PROTO_PROG_MULTI_MAX ->
  input s = PROTO_PROG_MULTI :: count :: rest ->
  iteration s =
  Ret tt (mkState (address s) (buf s) (fl s) (RSTSRC s) LED_OFF rest (trace s)).
Proof.
  intros Hd Hc Hin. run_frame Hin. unchecked Hd.
  rewrite dispatch_PROG_MULTI by assumption.
  unfold bind at 1, ret at 1, case_PROG_MULTI.
  erewrite bind_ret by (apply cin_cons; reflexivity).
  replace (count >? PROTO_PROG_MULTI_MAX) with true
    by (symmetry; apply Z.gtb_lt; lia).
  reflexivity.
Qed.

(** The frame up to its last byte: all of [data] is staged. *)
Ltac stage_frame data tl Hc H8 Hb :=
  unfold bind at 1, ret at 1, case_PROG_MULTI;
  unfold buf_declared in Hb; unfold is_uint8 in H8;
  erewrite bind_ret by (apply cin_cons; reflexivity);
  replace (Z.of_nat (length data) >? PROTO_PROG_MULTI_MAX) with false
    by (symmetry; rewrite Z.gtb_ltb; apply Z.ltb_ge; lia);
  unfold for_i; rewrite Nat2Z.id;
  erewrite bind_ret
    by (eapply (stage_rounds data 0 _ [] _ tl);
        simpl; try reflexivity; lia);
  erewrite bind_ret by (apply cin_cons; reflexivity).

Lemma run_PROG_MULTI s data rest :
  distinct_opcodes ->
  Z.of_nat (length data) <= PROTO_PROG_MULTI_MAX ->
  is_uint8 (Z.of_nat (length data)) ->
  buf_declared s -> is_uint16 (address s) ->
  input s = PROTO_PROG_MULTI :: Z.of_nat (length data) :: data ++ PROTO_EOC :: rest ->
  iteration s =
  Ret tt (mkState (wrap16 (address s + Z.of_nat (length data)))
                  (data ++ drop (length data) (buf s))
                  (program (fl s) (sequential (address s) data))
                  (RSTSRC s) LED_OFF rest
                  (trace s ++ imap (fun k d => EvBufStore (Z.of_nat k) d) data
                   ++ write_events (sequential (address s) data) ++ ack)).
Proof.
  intros Hd Hc H8 Hb Ha Hin. run_frame Hin. unchecked Hd.
  rewrite dispatch_PROG_MULTI by assumption.
  stage_frame data (PROTO_EOC :: rest) Hc H8 Hb.
  eoc_ok.
  rewrite (write_rounds data 0 _ [] (drop (length data) (buf s)));
    simpl; try reflexivity; try lia; try exact Ha.
  unfold_all. finish.
Qed.

Lemma run_PROG_MULTI_bad_eoc s data t rest :
  distinct_opcodes ->
  t <> PROTO_EOC ->
  Z.of_nat (length data) <= PROTO_PROG_MULTI_MAX ->
  is_uint8 (Z.of_nat (length data)) ->
  buf_declared s ->
  input s = PROTO_PROG_MULTI :: Z.of_nat (length data) :: data ++ t :: rest ->
  iteration s =
  Ret tt (mkState (address s) (data ++ drop (length data) (buf s)) (fl s)
                  (RSTSRC s) LED_OFF rest
                  (trace s ++ imap (fun k d => EvBufStore (Z.of_nat k) d) data)).
Proof.
  intros Hd Ht Hc H8 Hb Hin. run_frame Hin. unchecked Hd.
  rewrite dispatch_PROG_MULTI by assumption.
  stage_frame data (t :: rest) Hc H8 Hb.
  eoc_bad Ht. reflexivity.
Qed.

(** ** Projections of the event list *)

Lemma outputs_app l k : outputs (l ++ k) = outputs l ++ outputs k.
Proof.
  induction l as [|e l IH]; [reflexivity|].
  destruct e; simpl; rewrite IH; reflexivity.
Qed.

Lemma flash_ops_app l k : flash_ops (l ++ k) = flash_ops l ++ flash_ops k.
Proof.
  induction l as [|e l IH]; [reflexivity|].
  simpl. destruct (is_flash_op e); simpl; rewrite IH; reflexivity.
Qed.

Lemma staged_app l k : staged (l ++ k) = staged l ++ staged k.
Proof.
  induction l as [|e l IH]; [reflexivity|].
  destruct e; simpl; rewrite IH; reflexivity.
Qed.

Lemma stores_projections data : forall g,
  let evs := imap (fun k d => EvBufStore (g k) d) data in
  outputs evs = [] /\ flash_ops evs = []
  /\ staged evs = g <$> seq 0 (length data).
Proof.
  induction data as [|d data IH]; intros g; [repeat split; reflexivity|].
  destruct (IH (g ∘ S)) as (Ho & Hf & Hs).
  simpl. repeat split; try assumption.
  f_equal. rewrite <- fmap_S_seq, <- list_fmap_compose. exact Hs.
Qed.

Lemma writes_projections w :
  outputs (write_events w) = [] /\ flash_ops (write_events w) = write_events w
  /\ staged (write_events w) = [].
Proof.
  induction w as [|[a v] w (Ho & Hf & Hs)]; [repeat split; reflexivity|].
  simpl. rewrite Hf. repeat split; assumption.
Qed.

Lemma reads_projections f a l :
  let evs := mjoin ((fun k => let v := flash_read_byte f (wrap16 (a + k)) in
                              [EvFlashRead (wrap16 (a + k)) v; EvCout v]) <$> l) in
  outputs evs = (fun k => flash_read_byte f (wrap16 (a + k))) <$> l
  /\ flash_ops evs =
     (fun k => EvFlashRead (wrap16 (a + k)) (flash_read_byte f (wrap16 (a + k)))) <$> l
  /\ staged evs = [].
Proof.
  induction l as [|k l (Ho & Hf & Hs)]; [repeat split; reflexivity|].
  simpl. repeat split; [f_equal; exact Ho | f_equal; exact Hf | exact Hs].
Qed.

Lemma read_events_projections f a n :
  outputs (read_events f a n)
  = (fun k => flash_read_byte f (wrap16 (a + k))) <$> seqZ 0 n
  /\ flash_ops (read_events f a n)
     = (fun k => EvFlashRead (wrap16 (a + k)) (flash_read_byte f (wrap16 (a + k))))
       <$> seqZ 0 n
  /\ staged (read_events f a n) = [].
Proof. exact (reads_projections f a (seqZ 0 n)). Qed.

Lemma ack_projections :
  outputs ack = [PROTO_INSYNC; PROTO_OK] /\ flash_ops ack = [] /\ staged ack = [].
Proof. repeat split; reflexivity. Qed.

(** ** Rejected frames *)

(** [READ_MULTI] never compares its count with the size of [buf]: whatever
    that size, a count above it is served like any other. *)
Lemma read_multi_has_no_capacity_test s n rest :
  distinct_opcodes ->
  is_uint8 n -> is_uint16 (address s) ->
  n > PROTO_PROG_MULTI_MAX ->
  input s = PROTO_READ_MULTI :: n :: PROTO_EOC :: rest ->
  exists s' evs,
    iteration s = Ret tt s' /\ events_since s s' evs
    /\ Z.of_nat (length (flash_ops evs)) = n.
Proof.
  intros Hd H8 Ha _ Hin. unfold is_uint8 in H8.
  rewrite (run_READ_MULTI s n rest) by (assumption || lia).
  eexists _, _. unfold events_since. simpl. repeat split.
  destruct (read_events_projections (fl s) (address s) n) as (_ & Hf & _).
  rewrite flash_ops_app, Hf. simpl.
  rewrite app_nil_r, length_fmap, length_seqZ. lia.
Qed.


(** ** Programming *)

Lemma lookup_sequential a data k d :
  data !! k = Some d ->
  write_events (sequential a data) !! k
  = Some (EvFlashWrite (wrap16 (a + Z.of_nat k)) d).
Proof.
  intros Hk. unfold write_events, sequential.
  rewrite list_lookup_fmap, list_lookup_imap, Hk. reflexivity.
Qed.

Lemma length_write_events a data :
  length (write_events (sequential a data)) = length data.
Proof. unfold write_events, sequential. rewrite length_fmap, length_imap. reflexivity. Qed.

(** C2 (as amended): a [PROG_MULTI] frame with [count] no larger than [buf]
    and a good end-of-command byte programs its [count] data bytes, in the
    order they arrived, at [address], [address + 1], ... and leaves
    [address] advanced by [count] modulo 2^16; with a wrong last byte the
    flash is not touched. With a larger [count] the turn that takes the
    opcode and the count touches neither the flash nor [address], and
    leaves the data bytes and all that follows them on the link, where the
    next turns take them for commands. *)
Theorem prog_multi_programs_staged_bytes s count data rest :
  distinct_opcodes ->
  buf_declared s ->
  is_uint16 (address s) ->
  is_uint8 count ->
  count = Z.of_nat (length data) ->
  (count <= PROTO_PROG_MULTI_MAX ->
   input s = PROTO_PROG_MULTI :: count :: data ++ PROTO_EOC :: rest ->
   exists s' evs,
     iteration s = Ret tt s' /\ events_since s s' evs
     /\ flash_ops evs = write_events (sequential (address s) data)
     /\ Z.of_nat (length (flash_ops evs)) = count
     /\ (forall k d, data !! k = Some d ->
         flash_ops evs !! k
         = Some (EvFlashWrite (wrap16 (address s + Z.of_nat k)) d))
     /\ fl s' = program (fl s) (sequential (address s) data)
     /\ address s' = wrap16 (address s + count))
  /\ (forall t, t <> PROTO_EOC ->
      count <= PROTO_PROG_MULTI_MAX ->
      input s = PROTO_PROG_MULTI :: count :: data ++ t :: rest ->
      exists s' evs,
        iteration s = Ret tt s' /\ events_since s s' evs
        /\ flash_ops evs = [] /\ fl s' = fl s)
  /\ (count > PROTO_PROG_MULTI_MAX ->
      input s = PROTO_PROG_MULTI :: count :: data ++ rest ->
      exists s' evs,
        iteration s = Ret tt s' /\ events_since s s' evs
        /\ flash_ops evs = [] /\ fl s' = fl s
        /\ address s' = address s /\ input s' = data ++ rest).
Proof.
  intros Hd Hb Ha H8 ->. split; [|split].
  - intros Hc Hin. rewrite (run_PROG_MULTI s data rest) by assumption.
    eexists _, _. unfold events_since. simpl.
    destruct (stores_projections data Z.of_nat) as (_ & Hf1 & _).
    destruct (writes_projections (sequential (address s) data)) as (_ & Hf2 & _).
    assert (Hf : flash_ops (imap (fun k d => EvBufStore (Z.of_nat k) d) data
                            ++ write_events (sequential (address s) data) ++ ack)
                 = write_events (sequential (address s) data)).
    { rewrite !flash_ops_app, Hf1, Hf2. simpl. apply app_nil_r. }
    rewrite Hf. repeat split.
    + rewrite length_write_events. reflexivity.
    + intros k d. apply lookup_sequential.
  - intros t Ht Hc Hin. rewrite (run_PROG_MULTI_bad_eoc s data t rest) by assumption.
    eexists _, _. unfold events_since. simpl.
    destruct (stores_projections data Z.of_nat) as (_ & Hf1 & _).
    repeat split. exact Hf1.
  - intros Hc Hin. rewrite (run_PROG_MULTI_oversize s _ _ Hd Hc Hin).
    eexists _, []. unfold events_since. simpl. rewrite app_nil_r.
    repeat split.
Qed.

(** ** The boot gate *)

Lemma flash_error_bit rstsrc :
  (Z.land rstsrc (Z.shiftl 1 6) =? 0) = negb (Z.testbit rstsrc 6).
Proof.
  change (Z.shiftl 1 6) with (2 ^ 6).
  destruct (Z.testbit rstsrc 6) eqn:Hbit; simpl.
  - apply Z.eqb_neq. intros H0.
    assert (Hb : Z.testbit (Z.land rstsrc (2 ^ 6)) 6 = true).
    { rewrite Z.land_spec, Hbit, Z.pow2_bits_true by lia. reflexivity. }
    rewrite H0, Z.bits_0 in Hb. discriminate.
  - apply Z.eqb_eq. apply Z.bits_inj'. intros k Hk.
    rewrite Z.land_spec, Z.bits_0, Z.pow2_bits_eqb by lia.
    destruct (Z.eqb_spec 6 k) as [<-|]; [rewrite Hbit; reflexivity|].
    apply andb_false_r.
Qed.

(** C3: [bootloader()] jumps to the application exactly when bit 6 of
    [RSTSRC] is clear, [flash_app_valid()] holds and the button is not at
    its active level; if any of the three fails it enters the command
    loop. *)
Theorem boot_gate_transfers_iff_all_three rstsrc button f b inp n :
  (bootloader rstsrc button f b inp n
   = JumpToApp board_frequency BL_VERSION FLASH_APP_START
   <-> Z.testbit rstsrc 6 = false /\ flash_app_valid f = true
       /\ button <> BUTTON_ACTIVE)
  /\ (Z.testbit rstsrc 6 = true \/ flash_app_valid f = false
      \/ button = BUTTON_ACTIVE <->
      bootloader rstsrc button f b inp n
      = CommandLoop (main_loop n (loop_entry rstsrc f b inp))).
Proof.
  unfold bootloader, boot_gate. rewrite flash_error_bit.
  destruct (Z.testbit rstsrc 6), (flash_app_valid f),
    (Z.eqb_spec button BUTTON_ACTIVE); simpl;
    (split; split; intros H;
     repeat match goal with
            | H : _ /\ _ |- _ => destruct H
            | H : _ \/ _ |- _ => destruct H
            end;
     try discriminate; try contradiction; try reflexivity; auto).
Qed.

(** ** Loading the address and reading back *)

(** C4: after a [LOAD_ADDRESS] frame with bytes [lo], [hi] and a good
    end-of-command byte, [address] is [lo | (hi << 8)]; a [READ_FLASH] frame
    that follows sends the byte the flash driver reads at that address, then
    the sync response, and leaves [address] one further. *)
Theorem load_address_then_read_flash s lo hi rest :
  distinct_opcodes ->
  is_uint8 lo -> is_uint8 hi ->
  input s = PROTO_LOAD_ADDRESS :: lo :: hi :: PROTO_EOC
            :: PROTO_READ_FLASH :: PROTO_EOC :: rest ->
  let a := Z.lor lo (Z.shiftl hi 8) in
  let v := flash_read_byte (fl s) a in
  exists s1 s2,
    iteration s = Ret tt s1 /\ address s1 = a /\ fl s1 = fl s
    /\ iteration s1 = Ret tt s2
    /\ events_since s1 s2 ([EvFlashRead a v; EvCout v] ++ ack)
    /\ address s2 = wrap16 (a + 1)
    /\ main_loop 2 s = Ret tt s2.
Proof.
  intros Hd Hlo Hhi Hin a v.
  pose proof (run_LOAD_ADDRESS s lo hi _ Hd Hin) as H1.
  rewrite (shift_high_byte hi Hhi) in H1. fold a in H1.
  match type of H1 with _ = Ret tt ?st => set (s1 := st) in * end.
  pose proof (run_READ_FLASH s1 rest Hd eq_refl) as H2.
  simpl in H2. fold v in H2.
  match type of H2 with _ = Ret tt ?st => set (s2 := st) in * end.
  exists s1, s2. repeat split; try assumption.
  simpl. unfold bind. rewrite H1, H2. reflexivity.
Qed.

(** ** Reading *)

(** C5: a [READ_MULTI] frame with count [n] and a good end-of-command byte
    reads [n] bytes at [address], [address + 1], ... (modulo 2^16), sends
    each in that order, then the sync response, and leaves [address]
    advanced by [n] modulo 2^16. *)
Theorem read_multi_streams_count_bytes s n rest :
  distinct_opcodes ->
  is_uint8 n ->
  is_uint16 (address s) ->
  input s = PROTO_READ_MULTI :: n :: PROTO_EOC :: rest ->
  exists s' evs,
    iteration s = Ret tt s' /\ events_since s s' evs
    /\ evs = read_events (fl s) (address s) n ++ ack
    /\ flash_ops evs
       = (fun k => EvFlashRead (wrap16 (address s + k))
                     (flash_read_byte (fl s) (wrap16 (address s + k))))
         <$> seqZ 0 n
    /\ outputs evs
       = ((fun k => flash_read_byte (fl s) (wrap16 (address s + k))) <$> seqZ 0 n)
         ++ [PROTO_INSYNC; PROTO_OK]
    /\ Z.of_nat (length (flash_ops evs)) = n
    /\ address s' = wrap16 (address s + n)
    /\ fl s' = fl s.
Proof.
  intros Hd H8 Ha Hin. unfold is_uint8 in H8.
  rewrite (run_READ_MULTI s n rest) by (assumption || lia).
  eexists _, _. unfold events_since. simpl.
  destruct (read_events_projections (fl s) (address s) n) as (Ho & Hf & _).
  assert (Hfl : flash_ops (read_events (fl s) (address s) n ++ ack)
                = (fun k => EvFlashRead (wrap16 (address s + k))
                              (flash_read_byte (fl s) (wrap16 (address s + k))))
                  <$> seqZ 0 n).
  { rewrite flash_ops_app, Hf. simpl. apply app_nil_r. }
  repeat split.
  - exact Hfl.
  - rewrite outputs_app, Ho. reflexivity.
  - rewrite Hfl, length_fmap, length_seqZ. lia.
Qed.

(** ** The sync response *)

(** C6: a [GET_SYNC], [CHIP_ERASE], [PARAM_ERASE], [LOAD_ADDRESS] or
    [PROG_FLASH] frame with a good end-of-command byte sends [PROTO_INSYNC],
    [PROTO_OK] and nothing else; [GET_DEVICE], [READ_FLASH] and [READ_MULTI]
    send their own bytes first and the two after them. *)
Theorem successful_commands_end_with_sync s :
  distinct_opcodes ->
  is_uint16 (address s) ->
  replies s [PROTO_GET_SYNC; PROTO_EOC] [PROTO_INSYNC; PROTO_OK]
  /\ replies s [PROTO_CHIP_ERASE; PROTO_EOC] [PROTO_INSYNC; PROTO_OK]
  /\ replies s [PROTO_PARAM_ERASE; PROTO_EOC] [PROTO_INSYNC; PROTO_OK]
  /\ (forall lo hi,
      replies s [PROTO_LOAD_ADDRESS; lo; hi; PROTO_EOC] [PROTO_INSYNC; PROTO_OK])
  /\ (forall d,
      replies s [PROTO_PROG_FLASH; d; PROTO_EOC] [PROTO_INSYNC; PROTO_OK])
  /\ replies s [PROTO_GET_DEVICE; PROTO_EOC]
       [BOARD_ID; board_frequency; PROTO_INSYNC; PROTO_OK]
  /\ replies s [PROTO_READ_FLASH; PROTO_EOC]
       [flash_read_byte (fl s) (address s); PROTO_INSYNC; PROTO_OK]
  /\ (forall n, is_uint8 n ->
      replies s [PROTO_READ_MULTI; n; PROTO_EOC]
        (((fun k => flash_read_byte (fl s) (wrap16 (address s + k))) <$> seqZ 0 n)
         ++ [PROTO_INSYNC; PROTO_OK])).
Proof.
  intros Hd Ha. unfold replies, events_since.
  repeat match goal with |- _ /\ _ => split end.
  - intros rest Hin. rewrite (run_GET_SYNC s rest Hin). eexists _, _. simpl. eauto.
  - intros rest Hin. rewrite (run_CHIP_ERASE s rest Hd Hin). eexists _, _. simpl. eauto.
  - intros rest Hin. rewrite (run_PARAM_ERASE s rest Hd Hin). eexists _, _. simpl. eauto.
  - intros lo hi rest Hin. rewrite (run_LOAD_ADDRESS s lo hi rest Hd Hin).
    eexists _, _. simpl. eauto.
  - intros d rest Hin. rewrite (run_PROG_FLASH s d rest Hd Hin).
    eexists _, _. simpl. eauto.
  - intros rest Hin. rewrite (run_GET_DEVICE s rest Hd Hin). eexists _, _. simpl. eauto.
  - intros rest Hin. rewrite (run_READ_FLASH s rest Hd Hin). eexists _, _. simpl. eauto.
  - intros n H8 rest Hin. unfold is_uint8 in H8.
    rewrite (run_READ_MULTI s n rest) by (assumption || lia).
    eexists _, _. simpl. repeat split.
    destruct (read_events_projections (fl s) (address s) n) as (Ho & _).
    rewrite outputs_app, Ho. reflexivity.
Qed.

(** ** Unknown opcodes *)

(** C7: an opcode byte that is none of the ten opcodes makes the turn send
    nothing and leaves [address] as it was. *)
Theorem unknown_opcode_is_silent s c rest :
  c ∉ opcodes ->
  input s = c :: rest ->
  exists s',
    iteration s = Ret tt s' /\ trace s' = trace s /\ address s' = address s
    /\ fl s' = fl s /\ input s' = rest.
Proof.
  intros Hc Hin. rewrite (run_unknown s c rest Hc Hin).
  eexists. repeat split.
Qed.

(** ** Address arithmetic *)

Lemma cursor_advanced_wrap16 a n :
  is_uint16 a -> 0 <= n < 65536 -> cursor_advanced a n (wrap16 (a + n)).
Proof.
  unfold is_uint16, cursor_advanced, wrap16. intros Ha Hn. split; [reflexivity|].
  intros Hover.
  rewrite <- (Z.mod_small (a + n - 65536) 65536) by lia.
  replace (a + n) with ((a + n - 65536) + 1 * 65536) at 1 by lia.
  apply Z.mod_add. lia.
Qed.

(** C8: [address] is advanced in 16-bit unsigned arithmetic: each single-
    or multi-byte transfer that would pass 0xFFFF wraps to the low
    addresses, and the command completes normally. *)
Theorem address_wraps_modulo_65536 s rest :
  distinct_opcodes ->
  buf_declared s ->
  is_uint16 (address s) ->
  (forall d,
     input s = PROTO_PROG_FLASH :: d :: PROTO_EOC :: rest ->
     exists s', iteration s = Ret tt s'
                /\ cursor_advanced (address s) 1 (address s'))
  /\ (input s = PROTO_READ_FLASH :: PROTO_EOC :: rest ->
      exists s', iteration s = Ret tt s'
                 /\ cursor_advanced (address s) 1 (address s'))
  /\ (forall data,
      is_uint8 (Z.of_nat (length data)) ->
      Z.of_nat (length data) <= PROTO_PROG_MULTI_MAX ->
      input s = PROTO_PROG_MULTI :: Z.of_nat (length data)
                :: data ++ PROTO_EOC :: rest ->
      exists s', iteration s = Ret tt s'
                 /\ cursor_advanced (address s) (Z.of_nat (length data)) (address s')
                 /\ fl s' = program (fl s) (sequential (address s) data))
  /\ (forall n,
      is_uint8 n ->
      input s = PROTO_READ_MULTI :: n :: PROTO_EOC :: rest ->
      exists s', iteration s = Ret tt s'
                 /\ cursor_advanced (address s) n (address s')).
Proof.
  intros Hd Hb Ha. repeat match goal with |- _ /\ _ => split end.
  - intros d Hin. rewrite (run_PROG_FLASH s d rest Hd Hin). eexists. split; [reflexivity|].
    simpl. apply cursor_advanced_wrap16; [assumption | lia].
  - intros Hin. rewrite (run_READ_FLASH s rest Hd Hin). eexists. split; [reflexivity|].
    simpl. apply cursor_advanced_wrap16; [assumption | lia].
  - intros data H8 Hc Hin. rewrite (run_PROG_MULTI s data rest) by assumption.
    eexists. split; [reflexivity|]. simpl. split; [|reflexivity].
    unfold is_uint8 in H8. apply cursor_advanced_wrap16; [assumption | lia].
  - intros n H8 Hin. unfold is_uint8 in H8.
    rewrite (run_READ_MULTI s n rest) by (assumption || lia).
    eexists. split; [reflexivity|]. simpl.
    apply cursor_advanced_wrap16; [assumption | lia].
Qed.

(** ** A framing error after the address bytes *)

(** C9: a [LOAD_ADDRESS] frame whose last byte is not the end-of-command
    byte still leaves [address] set to the value decoded from its two
    bytes; nothing is sent. *)
Theorem load_address_kept_on_bad_terminator s lo hi t rest :
  distinct_opcodes ->
  is_uint8 lo -> is_uint8 hi ->
  t <> PROTO_EOC ->
  input s = PROTO_LOAD_ADDRESS :: lo :: hi :: t :: rest ->
  exists s',
    iteration s = Ret tt s' /\ address s' = Z.lor lo (Z.shiftl hi 8)
    /\ is_uint16 (address s')
    /\ trace s' = trace s /\ fl s' = fl s /\ input s' = rest.
Proof.
  intros Hd Hlo Hhi Ht Hin.
  rewrite (run_LOAD_ADDRESS_bad_eoc s lo hi t rest Hd Ht Hin).
  rewrite (shift_high_byte hi Hhi).
  eexists. repeat split; simpl; try apply uint16_of_bytes; try assumption;
    unfold is_uint8 in *; lia.
Qed.

(** ** Staging never leaves the buffer *)

(** Whatever arrives on the link, also when it stops early. *)
Lemma stage_rounds_safe n : forall i s,
  0 <= i -> i + Z.of_nat n <= 255 ->
  i + Z.of_nat n <= Z.of_nat (length (buf s)) ->
  let r := for_rounds n i stage_body s in
  is_fault r = false
  /\ length (buf (final r)) = length (buf s)
  /\ exists evs, trace (final r) = trace s ++ evs
                 /\ Forall (fun j => i <= j < i + Z.of_nat n) (staged evs).
Proof.
  induction n as [|n IH]; intros i s Hi Hn Hlen.
  - simpl. split; [reflexivity|]. split; [reflexivity|].
    exists []. rewrite app_nil_r. split; [reflexivity|constructor].
  - intros r. subst r. destruct (input s) as [|b rest] eqn:Hin.
    + assert (Hr : for_rounds (S n) i stage_body s = Blocked s)
        by (simpl; unfold bind, stage_body, bind, cin; rewrite Hin; reflexivity).
      rewrite Hr. simpl. split; [reflexivity|]. split; [reflexivity|].
      exists []. rewrite app_nil_r. split; [reflexivity|constructor].
    + set (s1 := emit (EvBufStore i b)
                   (set_buf (<[Z.to_nat i := b]> (buf s)) (set_input rest s))).
      assert (Hr : for_rounds (S n) i stage_body s
                   = for_rounds n (i + 1) stage_body s1).
      { simpl. unfold bind at 1, stage_body at 1, bind at 1, cin at 1.
        rewrite Hin. unfold buf_store at 1. simpl.
        replace ((0 <=? i) && (i <? Z.of_nat (length (buf s)))) with true
          by (symmetry; apply andb_true_intro; split;
              [apply Z.leb_le | apply Z.ltb_lt]; lia).
        rewrite wrap8_small by (unfold is_uint8; lia). reflexivity. }
      rewrite Hr.
      assert (Hl1 : length (buf s1) = length (buf s))
        by (subst s1; simpl; apply length_insert).
      specialize (IH (i + 1) s1 ltac:(lia) ltac:(lia) ltac:(lia)).
      cbv zeta in IH. destruct IH as (Hf & Hb & evs & Htr & Hall).
      split; [exact Hf|]. split; [congruence|].
      exists (EvBufStore i b :: evs). split.
      * rewrite Htr. subst s1. simpl. rewrite <- app_assoc. reflexivity.
      * simpl. constructor; [lia|].
        eapply Forall_impl; [exact Hall|]. simpl. intros j Hj. lia.
Qed.

Lemma write_rounds_safe n : forall i s,
  0 <= i -> i + Z.of_nat n <= 255 ->
  i + Z.of_nat n <= Z.of_nat (length (buf s)) ->
  exists s' evs,
    for_rounds n i write_body s = Ret tt s'
    /\ trace s' = trace s ++ evs /\ staged evs = [].
Proof.
  induction n as [|n IH]; intros i s Hi Hn Hlen.
  - exists s, []. rewrite app_nil_r. repeat split.
  - simpl for_rounds. unfold bind at 1, write_body at 1, bind at 1, buf_load at 1.
    replace (0 <=? i) with true by (symmetry; apply Z.leb_le; lia).
    destruct (lookup_lt_is_Some_2 (buf s) (Z.to_nat i)) as [v Hv]; [lia|].
    rewrite Hv. unfold_all.
    rewrite wrap8_small by (unfold is_uint8; lia).
    match goal with
    | |- context [for_rounds n (i + 1) write_body ?st] => set (s1 := st)
    end.
    destruct (IH (i + 1) s1) as (s' & evs & Hr & Htr & Hst);
      [lia | lia | subst s1; simpl; lia |].
    exists s', (EvFlashWrite (address s) v :: evs). split; [exact Hr|].
    split; [|exact Hst].
    rewrite Htr. subst s1. simpl. rewrite <- app_assoc. reflexivity.
Qed.

Lemma case_PROG_MULTI_safe s :
  Forall is_uint8 (input s) ->
  Z.of_nat (length (buf s)) = PROTO_PROG_MULTI_MAX ->
  let r := case_PROG_MULTI s in
  is_fault r = false
  /\ exists evs, trace (final r) = trace s ++ evs
                 /\ Forall (fun j => 0 <= j < PROTO_PROG_MULTI_MAX) (staged evs).
Proof.
  intros Hbytes Hb.
  assert (Hnone : exists evs, trace s = trace s ++ evs
            /\ Forall (fun j => 0 <= j < PROTO_PROG_MULTI_MAX) (staged evs))
    by (exists []; rewrite app_nil_r; split; [reflexivity | constructor]).
  intros r. assert (Hr : r = case_PROG_MULTI s) by reflexivity. clearbody r.
  unfold case_PROG_MULTI, bind at 1, cin at 1 in Hr.
  destruct (input s) as [|count rest] eqn:Hin;
    [subst r; simpl; split; [reflexivity | exact Hnone]|].
  apply Forall_cons in Hbytes. destruct Hbytes as [H8 _]. unfold is_uint8 in H8.
  destruct (count >? PROTO_PROG_MULTI_MAX) eqn:Hc;
    [subst r; simpl; split; [reflexivity | exact Hnone]|].
  rewrite Z.gtb_ltb in Hc. apply Z.ltb_ge in Hc.
  unfold for_i, bind at 1 in Hr.
  fold stage_body in Hr. fold write_body in Hr.
  pose proof (stage_rounds_safe (Z.to_nat count) 0 (set_input rest s)
                ltac:(lia) ltac:(lia) ltac:(simpl; lia)) as Hst.
  cbv zeta in Hst. destruct Hst as (Hf & Hlen & evs & Htr & Hall).
  assert (Hall' : Forall (fun j => 0 <= j < PROTO_PROG_MULTI_MAX) (staged evs))
    by (eapply Forall_impl; [exact Hall|]; simpl; intros j Hj; lia).
  destruct (for_rounds (Z.to_nat count) 0 stage_body (set_input rest s))
    as [[] s2| s2 | s2 | s2]; simpl in Hf, Hlen, Htr; try discriminate;
    try (subst r; simpl; split; [reflexivity|]; exists evs; split; assumption).
  unfold bind at 1, cin at 1 in Hr.
  destruct (input s2) as [|t rest2];
    [subst r; simpl; split; [reflexivity|]; exists evs; split; assumption|].
  destruct (negb (t =? PROTO_EOC));
    [subst r; simpl; split; [reflexivity|]; exists evs; split; assumption|].
  destruct (write_rounds_safe (Z.to_nat count) 0 (set_input rest2 s2))
    as (s3 & evs3 & Hw & Htr3 & Hst3); simpl; try lia.
  rewrite Hw in Hr. subst r. simpl. split; [reflexivity|].
  exists (evs ++ evs3). split.
  - rewrite Htr3. simpl. rewrite Htr, app_assoc. reflexivity.
  - rewrite staged_app, Hst3, app_nil_r. exact Hall'.
Qed.

(** C10: in a [PROG_MULTI] frame every store into [buf] has an index below
    the size of [buf], whatever bytes follow the opcode, so no access to
    [buf] is out of bounds; and a count equal to the size of [buf] is
    accepted: its bytes are staged, programmed and acknowledged. *)
Theorem staging_stays_inside_buf s rest :
  distinct_opcodes ->
  buf_declared s ->
  is_uint16 (address s) ->
  Forall is_uint8 rest ->
  input s = PROTO_PROG_MULTI :: rest ->
  is_fault (iteration s) = false
  /\ (exists evs, events_since s (final (iteration s)) evs
        /\ Forall (fun j => 0 <= j < PROTO_PROG_MULTI_MAX) (staged evs))
  /\ (forall data rest',
       Z.of_nat (length data) = PROTO_PROG_MULTI_MAX ->
       rest = PROTO_PROG_MULTI_MAX :: data ++ PROTO_EOC :: rest' ->
       exists s' evs,
         iteration s = Ret tt s' /\ events_since s s' evs
         /\ staged evs = Z.of_nat <$> seq 0 (length data)
         /\ flash_ops evs = write_events (sequential (address s) data)
         /\ outputs evs = [PROTO_INSYNC; PROTO_OK]).
Proof.
  intros Hd Hb Ha Hbytes Hin.
  assert (Hsafe := case_PROG_MULTI_safe (opcode_read rest s) Hbytes Hb).
  simpl in Hsafe. destruct Hsafe as (Hf & evs & Htr & Hall).
  assert (Hit : iteration s =
                match case_PROG_MULTI (opcode_read rest s) with
                | Ret _ s' => sync_response s'
                | CmdBad s' => Ret tt s'
                | Blocked s' => Blocked s'
                | Fault s' => Fault s'
                end).
  { run_frame Hin. unchecked Hd. rewrite dispatch_PROG_MULTI by assumption.
    reflexivity. }
  split; [|split].
  - rewrite Hit. destruct (case_PROG_MULTI (opcode_read rest s)); try reflexivity.
    discriminate.
  - rewrite Hit. unfold events_since.
    destruct (case_PROG_MULTI (opcode_read rest s)) as [[] s'|s'|s'|s'];
      simpl in Htr |- *; try (exists evs; split; assumption).
    exists (evs ++ ack). split.
    + rewrite Htr, <- !app_assoc. reflexivity.
    + rewrite staged_app. simpl. rewrite app_nil_r. exact Hall.
  - intros data rest' Hlen ->. rewrite <- Hlen in Hin.
    assert (H8 : is_uint8 (Z.of_nat (length data))).
    { apply Forall_cons in Hbytes. rewrite Hlen. tauto. }
    rewrite (run_PROG_MULTI s data rest') by (assumption || lia).
    eexists _, _. unfold events_since. simpl. split; [reflexivity|].
    split; [reflexivity|].
    destruct (stores_projections data Z.of_nat) as (Ho1 & Hf1 & Hs1).
    destruct (writes_projections (sequential (address s) data)) as (Ho2 & Hf2 & Hs2).
    rewrite !staged_app, !flash_ops_app, !outputs_app.
    rewrite Ho1, Hf1, Hs1, Ho2, Hf2, Hs2. simpl. rewrite app_nil_r.
    rewrite app_nil_r. repeat split.
Qed.

End Properties.

(** * Reachable states *)

Section Invariant.

Context {P : Protocol} {B : Board} {F : FlashDriver}.

Ltac wf_split := unfold well_formed; simpl; split; [|split].

Lemma keeps_bind {A C} (Q : A -> Prop) (R : C -> Prop) (m : M A) (k : A -> M C) :
  keeps Q m -> (forall a, Q a -> keeps R (k a)) -> keeps R (bind m k).
Proof.
  intros Hm Hk s Hs. unfold bind.
  destruct (Hm s Hs) as [Hwf Hq].
  destruct (m s) as [a s1|s1|s1|s1]; simpl in Hwf;
    try (split; [exact Hwf | intros ? ? ?; discriminate]).
  apply (Hk a (Hq a s1 eq_refl) s1 Hwf).
Qed.

Lemma keeps_weaken {A} (Q R : A -> Prop) (m : M A) :
  (forall a, Q a -> R a) -> keeps Q m -> keeps R m.
Proof.
  intros HQR Hm s Hs. destruct (Hm s Hs) as [Hwf Hq].
  split; [exact Hwf|]. intros a s' E. apply HQR. exact (Hq a s' E).
Qed.

Lemma keeps_step (g : state -> state) :
  (forall s, well_formed s -> well_formed (g s)) ->
  keeps any (fun s => Ret tt (g s)).
Proof. intros Hg s Hs. split; [apply Hg, Hs | intros; exact I]. Qed.

Lemma keeps_ret {A} (a : A) : keeps any (ret a).
Proof. intros s Hs. split; [exact Hs | intros; exact I]. Qed.

Lemma keeps_goto {A} : keeps any (@goto_cmd_bad _ A).
Proof. intros s Hs. split; [exact Hs | intros; exact I]. Qed.

Lemma keeps_cin : keeps is_uint8 cin.
Proof.
  intros s Hs. unfold cin.
  destruct (input s) as [|b rest] eqn:E.
  - split; [exact Hs | intros ? ? ?; discriminate].
  - destruct Hs as (Ha & Hb & Hin). rewrite E in Hin.
    apply Forall_cons in Hin. destruct Hin as [H8 Hrest].
    split; [wf_split; assumption|].
    intros a s' [= <- _]. exact H8.
Qed.

Lemma keeps_cout b : keeps any (cout b).
Proof. apply (keeps_step (emit (EvCout b))). intros s Hs. exact Hs. Qed.

Lemma keeps_address_post_inc : keeps any address_post_inc.
Proof.
  intros s (Ha & Hb & Hin). split; [|intros; exact I].
  wf_split; try assumption. apply wrap16_range.
Qed.

Lemma keeps_buf_store i v : keeps any (buf_store i v).
Proof.
  intros s (Ha & Hb & Hin). unfold buf_store.
  destruct ((0 <=? i) && (i <? Z.of_nat (length (buf s))));
    (split; [|intros; exact I]); wf_split; try assumption.
  unfold buf_declared in *. simpl. rewrite length_insert. exact Hb.
Qed.

Lemma keeps_buf_load i : keeps any (buf_load i).
Proof.
  intros s Hs. unfold buf_load.
  destruct (0 <=? i); [destruct (buf s !! Z.to_nat i)|];
    (split; [exact Hs | intros; exact I]).
Qed.

Lemma keeps_flash_write a v : keeps any (do_flash_write_byte a v).
Proof. apply (keeps_step (fun s => emit _ (set_fl _ s))). intros s Hs. exact Hs. Qed.

Lemma keeps_flash_read a : keeps any (do_flash_read_byte a).
Proof. intros s Hs. split; [exact Hs | intros; exact I]. Qed.

Lemma keeps_for_rounds body n : forall i,
  (forall j, keeps any (body j)) -> keeps any (for_rounds n i body).
Proof.
  induction n as [|n IH]; intros i Hbody; [apply keeps_ret|].
  simpl. eapply keeps_bind; [apply Hbody|]. intros _ _. apply IH, Hbody.
Qed.

Lemma keeps_eoc_test : keeps any (t <- cin ;; if negb (t =? PROTO_EOC)
                                              then goto_cmd_bad else ret tt).
Proof.
  eapply keeps_bind; [apply keeps_cin|]. intros t _.
  destruct (negb (t =? PROTO_EOC)); [apply keeps_goto | apply keeps_ret].
Qed.

Lemma keeps_get_uint16 : keeps is_uint16 get_uint16.
Proof.
  unfold get_uint16.
  eapply keeps_bind; [apply keeps_cin|]. intros lo Hlo.
  eapply keeps_bind; [apply keeps_cin|]. intros hi Hhi.
  intros s Hs. split; [exact Hs|]. intros a s' [= <- _].
  rewrite (shift_high_byte hi Hhi). apply uint16_of_bytes; assumption.
Qed.

Ltac keeps_seq := eapply keeps_bind; [|intros ? ?].

Lemma keeps_dispatch c : keeps any (dispatch c).
Proof.
  unfold dispatch.
  repeat match goal with
         | |- keeps _ (if ?b then _ else _) => destruct b
         end.
  - apply keeps_ret.
  - unfold case_GET_DEVICE. keeps_seq; apply keeps_cout.
  - apply (keeps_step (fun s => emit _ (set_fl _ s))). intros s Hs. exact Hs.
  - apply (keeps_step (fun s => emit _ (set_fl _ s))). intros s Hs. exact Hs.
  - unfold case_LOAD_ADDRESS. keeps_seq; [apply keeps_get_uint16|].
    keeps_seq; [|apply keeps_eoc_test].
    apply keeps_step. intros s (Ha & Hb & Hin). wf_split; assumption.
  - unfold case_PROG_FLASH. keeps_seq; [apply keeps_cin|].
    keeps_seq; [apply keeps_cin|].
    destruct (negb (_ =? PROTO_EOC)); [apply keeps_goto|].
    keeps_seq; [apply keeps_address_post_inc | apply keeps_flash_write].
  - unfold case_READ_FLASH. keeps_seq; [apply keeps_address_post_inc|].
    keeps_seq; [apply keeps_flash_read | apply keeps_cout].
  - unfold case_PROG_MULTI. keeps_seq; [apply keeps_cin|].
    destruct (_ >? PROTO_PROG_MULTI_MAX); [apply keeps_goto|].
    keeps_seq.
    { apply keeps_for_rounds. intros j. keeps_seq; [apply keeps_cin|].
      apply keeps_buf_store. }
    keeps_seq; [apply keeps_cin|].
    destruct (negb (_ =? PROTO_EOC)); [apply keeps_goto|].
    apply keeps_for_rounds. intros j. keeps_seq; [apply keeps_buf_load|].
    keeps_seq; [apply keeps_address_post_inc | apply keeps_flash_write].
  - unfold case_READ_MULTI. keeps_seq; [apply keeps_cin|].
    keeps_seq; [apply keeps_cin|].
    destruct (negb (_ =? PROTO_EOC)); [apply keeps_goto|].
    apply keeps_for_rounds. intros j. keeps_seq; [apply keeps_address_post_inc|].
    keeps_seq; [apply keeps_flash_read | apply keeps_cout].
  - unfold case_REBOOT. keeps_seq; [|apply keeps_goto].
    apply keeps_step. intros s Hs. exact Hs.
  - apply keeps_goto.
Qed.

Lemma keeps_command : keeps any command.
Proof.
  unfold command.
  keeps_seq; [apply keeps_step; intros s Hs; exact Hs|].
  keeps_seq; [apply keeps_cin|].
  keeps_seq; [apply keeps_step; intros s Hs; exact Hs|].
  keeps_seq; [|apply keeps_dispatch].
  unfold common_eoc_test.
  match goal with |- keeps _ (if ?b then _ else _) => destruct b end;
    [apply keeps_eoc_test | apply keeps_ret].
Qed.

(** Each turn of the loop ends in a well-formed state. *)
Lemma keeps_iteration : keeps any iteration.
Proof.
  intros s Hs. unfold iteration.
  destruct (keeps_command s Hs) as [Hwf _].
  destruct (command s) as [[] s1|s1|s1|s1]; simpl in Hwf;
    (split; [exact Hwf | intros; exact I]).
Qed.

(** So does every prefix of the main loop, started as [bootloader()] does. *)
Lemma main_loop_well_formed n rstsrc f b inp :
  Z.of_nat (length b) = PROTO_PROG_MULTI_MAX ->
  Forall is_uint8 inp ->
  well_formed (final (main_loop n (loop_entry rstsrc f b inp))).
Proof.
  intros Hb Hin.
  assert (Hloop : keeps any (main_loop n)).
  { induction n as [|n IH]; [apply keeps_ret|].
    simpl. eapply keeps_bind; [apply keeps_iteration|]. intros _ _. exact IH. }
  apply Hloop. wf_split; try assumption. unfold is_uint16. lia.
Qed.

End Invariant.

(** * The properties on the sample configuration *)


(** C2 as first stated leaves the flash untouched by a [PROG_MULTI] frame
    whose count exceeds the size of [buf]. The frame is given up after
    the count byte and its data bytes are not skipped: with count 33
    against a buffer of 32 bytes and data that starts with the bytes of a
    [PROG_FLASH] frame, the loop, by the time it has consumed the frame,
    has programmed cell 0 and acknowledged. *)
Lemma over_capacity_payload_is_run_as_commands :
  let data := [PROTO_PROG_FLASH; 0xAB; PROTO_EOC] ++ replicate 30 0 in
  let s := sample_state (PROTO_PROG_MULTI :: 33 :: data ++ [PROTO_EOC]) in
  Z.of_nat (length data) = 33
  /\ 33 > PROTO_PROG_MULTI_MAX
  /\ fl s = [] /\ trace s = []
  /\ exists s', main_loop 33 s = Ret tt s' /\ input s' = []
                /\ flash_ops (trace s') = [EvFlashWrite 0 0xAB]
                /\ fl s' = [(0, 0xAB)]
                /\ fl s' <> fl s
                /\ outputs (trace s') = [PROTO_INSYNC; PROTO_OK].
Proof.
  repeat (split; [reflexivity|]).
  eexists. split; [vm_compute; reflexivity|]. repeat split. discriminate.
Qed.


Lemma prog_multi_witness :
  let s := sample_state_at 0xFFFE [0x27; 3; 7; 8; 9; 0x20; 5] in
  exists s' evs,
    iteration s = Ret tt s' /\ events_since s s' evs
    /\ flash_ops evs = [EvFlashWrite 0xFFFE 7; EvFlashWrite 0xFFFF 8; EvFlashWrite 0 9]
    /\ fl s' = [(0, 9); (0xFFFF, 8); (0xFFFE, 7)]
    /\ address s' = 1.
Proof.
  intros s.
  destruct (prog_multi_programs_staged_bytes s 3 [7; 8; 9] [5]) as (Hok & _).
  - compute_done.
  - reflexivity.
  - unfold is_uint16; simpl; lia.
  - unfold is_uint8; lia.
  - reflexivity.
  - destruct Hok as (s' & evs & Hrun & Hev & Hops & _ & _ & Hfl & Haddr);
      [simpl; lia | reflexivity |].
    exists s', evs. repeat split; assumption.
Defined.

Lemma load_address_then_read_flash_witness :
  let s := sample_state [0x24; 0x34; 0x12; 0x20; 0x26; 0x20] in
  exists s1 s2,
    iteration s = Ret tt s1 /\ address s1 = 0x1234 /\ fl s1 = fl s
    /\ iteration s1 = Ret tt s2
    /\ events_since s1 s2 ([EvFlashRead 0x1234 0xFF; EvCout 0xFF] ++ ack)
    /\ address s2 = 0x1235
    /\ main_loop 2 s = Ret tt s2.
Proof.
  intros s. apply (load_address_then_read_flash s 0x34 0x12 []).
  - compute_done.
  - unfold is_uint8; lia.
  - unfold is_uint8; lia.
  - reflexivity.
Defined.

Lemma read_multi_witness :
  let s := sample_state_at 0xFFFF [0x28; 2; 0x20] in
  exists s' evs,
    iteration s = Ret tt s' /\ events_since s s' evs
    /\ evs = read_events (fl s) (address s) 2 ++ ack
    /\ flash_ops evs = [EvFlashRead 0xFFFF 0xFF; EvFlashRead 0 0xFF]
    /\ outputs evs = [0xFF; 0xFF; PROTO_INSYNC; PROTO_OK]
    /\ Z.of_nat (length (flash_ops evs)) = 2
    /\ address s' = 1
    /\ fl s' = fl s.
Proof.
  intros s. apply (read_multi_streams_count_bytes s 2 []).
  - compute_done.
  - unfold is_uint8; lia.
  - unfold is_uint16; simpl; lia.
  - reflexivity.
Defined.

Lemma sync_response_witness :
  replies (sample_state [0x21; 0x20]) [PROTO_GET_SYNC; PROTO_EOC]
          [PROTO_INSYNC; PROTO_OK].
Proof.
  apply (successful_commands_end_with_sync (sample_state [0x21; 0x20])).
  - compute_done.
  - unfold is_uint16; simpl; lia.
Defined.

Lemma unknown_opcode_witness :
  let s := sample_state [0x31; 0x20] in
  exists s',
    iteration s = Ret tt s' /\ trace s' = trace s /\ address s' = address s
    /\ fl s' = fl s /\ input s' = [0x20].
Proof.
  intros s. apply (unknown_opcode_is_silent s 0x31 [0x20]).
  - compute_done.
  - reflexivity.
Defined.

Lemma address_wraps_witness :
  let s := sample_state_at 0xFFFF [0x25; 0xAB; 0x20] in
  exists s', iteration s = Ret tt s' /\ cursor_advanced 0xFFFF 1 (address s').
Proof.
  intros s.
  destruct (address_wraps_modulo_65536 s []) as (Hprog & _).
  - compute_done.
  - reflexivity.
  - unfold is_uint16; simpl; lia.
  - apply (Hprog 0xAB). reflexivity.
Defined.

Lemma load_address_bad_terminator_witness :
  let s := sample_state [0x24; 0x34; 0x12; 0x21] in
  exists s',
    iteration s = Ret tt s' /\ address s' = Z.lor 0x34 (Z.shiftl 0x12 8)
    /\ is_uint16 (address s')
    /\ trace s' = trace s /\ fl s' = fl s /\ input s' = [].
Proof.
  intros s. apply (load_address_kept_on_bad_terminator s 0x34 0x12 0x21 []).
  - compute_done.
  - unfold is_uint8; lia.
  - unfold is_uint8; lia.
  - compute_done.
  - reflexivity.
Defined.

Lemma staging_witness :
  let data := replicate 32 7 in
  let s := sample_state (0x27 :: 32 :: data ++ [0x20]) in
  is_fault (iteration s) = false
  /\ (exists evs, events_since s (final (iteration s)) evs
                  /\ Forall (fun j => 0 <= j < 32) (staged evs))
  /\ (exists s' evs,
        iteration s = Ret tt s' /\ events_since s s' evs
        /\ staged evs = Z.of_nat <$> seq 0 32
        /\ flash_ops evs = write_events (sequential 0 data)
        /\ outputs evs = [PROTO_INSYNC; PROTO_OK]).
Proof.
  intros data s.
  destruct (staging_stays_inside_buf s (32 :: data ++ [0x20])) as (Hf & Hin & Hcap).
  - compute_done.
  - reflexivity.
  - unfold is_uint16; simpl; lia.
  - repeat constructor; unfold is_uint8; lia.
  - reflexivity.
  - split; [exact Hf|]. split; [exact Hin|].
    apply (Hcap data []); reflexivity.
Defined.

(** * Whole turns on arbitrary input *)

Section Turns.

Context {P : Protocol} {B : Board} {F : FlashDriver}.

(** ** Relations kept by every statement *)

Lemma steps_bind {A C} (R : state -> state -> Prop) (m : M A) (k : A -> M C) :
  (forall s1 s2 s3, R s1 s2 -> R s2 s3 -> R s1 s3) ->
  steps R m -> (forall a, steps R (k a)) -> steps R (bind m k).
Proof.
  intros Htrans Hm Hk s. unfold bind. specialize (Hm s).
  destruct (m s) as [a s1|s1|s1|s1]; simpl in Hm; try exact Hm.
  exact (Htrans _ _ _ Hm (Hk a s1)).
Qed.

Lemma steps_for_rounds (R : state -> state -> Prop) body n : forall i,
  (forall s, R s s) ->
  (forall s1 s2 s3, R s1 s2 -> R s2 s3 -> R s1 s3) ->
  (forall j, steps R (body j)) -> steps R (for_rounds n i body).
Proof.
  induction n as [|n IH]; intros i Hrefl Htrans Hbody.
  - intros s. apply Hrefl.
  - simpl. apply steps_bind; [exact Htrans | apply Hbody |].
    intros _. apply IH; assumption.
Qed.

Lemma quiet_refl s : quiet s s.
Proof. split; [reflexivity|]. exists []. rewrite app_nil_r. repeat split. Qed.

Lemma quiet_trans s1 s2 s3 : quiet s1 s2 -> quiet s2 s3 -> quiet s1 s3.
Proof.
  intros (Hf1 & e1 & Ht1 & Ho1 & Hp1) (Hf2 & e2 & Ht2 & Ho2 & Hp2).
  split; [congruence|]. exists (e1 ++ e2).
  rewrite Ht2, Ht1, <- app_assoc, outputs_app, flash_ops_app, Ho1, Ho2, Hp1, Hp2.
  repeat split.
Qed.

Lemma flash_kept_refl s : flash_kept s s.
Proof. split; [reflexivity|]. exists []. rewrite app_nil_r. split; [reflexivity|constructor]. Qed.

Lemma flash_kept_trans s1 s2 s3 :
  flash_kept s1 s2 -> flash_kept s2 s3 -> flash_kept s1 s3.
Proof.
  intros (Hf1 & e1 & Ht1 & Ha1) (Hf2 & e2 & Ht2 & Ha2).
  split; [congruence|]. exists (e1 ++ e2).
  rewrite Ht2, Ht1, <- app_assoc. split; [reflexivity|].
  apply Forall_app. split; assumption.
Qed.

Lemma flash_kept_emit e s :
  is_flash_change e = false -> flash_kept s (emit e s).
Proof.
  intros He. split; [reflexivity|]. exists [e]. split; [reflexivity|].
  repeat constructor. exact He.
Qed.

Lemma quiet_buf_store i v s :
  quiet s (emit (EvBufStore i v) (set_buf (<[Z.to_nat i := v]> (buf s)) s)).
Proof. split; [reflexivity|]. exists [EvBufStore i v]. repeat split. Qed.

(** ** Statements that cannot be seen, statements that cannot fail *)

Lemma silent_bind {A C} (m : M A) (k : A -> M C) :
  silent m -> (forall a, silent (k a)) -> silent (bind m k).
Proof.
  intros Hm Hk s. destruct (Hm s) as [Hq Hf]. unfold inert, bind in *.
  destruct (m s) as [a s1|s1|s1|s1]; simpl in *; try (split; assumption).
  destruct (Hk a s1) as [Hq2 Hf2]. split; [|exact Hf2].
  exact (quiet_trans _ _ _ Hq Hq2).
Qed.

Lemma silent_step (g : state -> state) :
  (forall s, quiet s (g s)) -> silent (fun s => Ret tt (g s)).
Proof. intros Hg s. split; [apply Hg | reflexivity]. Qed.

Lemma silent_ret {A} (a : A) : silent (ret a).
Proof. intros s. split; [apply quiet_refl | reflexivity]. Qed.

Lemma silent_goto {A} : silent (@goto_cmd_bad _ A).
Proof. intros s. split; [apply quiet_refl | reflexivity]. Qed.

Lemma quiet_fields s a b r l i :
  quiet s (mkState a b (fl s) r l i (trace s)).
Proof. split; [reflexivity|]. exists []. simpl. rewrite app_nil_r. repeat split. Qed.

Lemma silent_cin : silent cin.
Proof.
  intros s. unfold inert, cin.
  destruct (input s); (split; [|reflexivity]); simpl;
    [apply quiet_refl | apply quiet_fields].
Qed.

Lemma silent_eoc_test :
  silent (t <- cin ;; if negb (t =? PROTO_EOC) then goto_cmd_bad else ret tt).
Proof.
  apply silent_bind; [apply silent_cin|]. intros t.
  destruct (negb (t =? PROTO_EOC)); [apply silent_goto | apply silent_ret].
Qed.

Lemma silent_common_eoc_test c : silent (common_eoc_test c).
Proof.
  unfold common_eoc_test.
  match goal with |- silent (if ?b then _ else _) => destruct b end;
    [apply silent_eoc_test | apply silent_ret].
Qed.

Lemma keeps_common_eoc_test c : keeps any (common_eoc_test c).
Proof.
  unfold common_eoc_test.
  match goal with |- keeps _ (if ?b then _ else _) => destruct b end;
    [apply keeps_eoc_test | apply keeps_ret].
Qed.

Lemma total_bind {A C} (m : M A) (k : A -> M C) :
  total m -> (forall a, total (k a)) -> total (bind m k).
Proof.
  intros Hm Hk s. destruct (Hm s) as (a & s1 & e1 & Hr1 & Ht1).
  destruct (Hk a s1) as (c & s2 & e2 & Hr2 & Ht2).
  exists c, s2, (e1 ++ e2). unfold bind. rewrite Hr1. split; [exact Hr2|].
  rewrite Ht2, Ht1, app_assoc. reflexivity.
Qed.

Lemma total_ret {A} (a : A) : total (ret a).
Proof. intros s. exists a, s, []. rewrite app_nil_r. split; reflexivity. Qed.

Lemma total_cout b : total (cout b).
Proof. intros s. exists tt, (emit (EvCout b) s), [EvCout b]. split; reflexivity. Qed.

Lemma total_address_post_inc : total address_post_inc.
Proof.
  intros s. eexists _, _, []. split; [reflexivity|]. simpl. rewrite app_nil_r.
  reflexivity.
Qed.

Lemma total_flash_write a v : total (do_flash_write_byte a v).
Proof. intros s. eexists _, _, [_]. split; reflexivity. Qed.

Lemma total_flash_read a : total (do_flash_read_byte a).
Proof. intros s. eexists _, _, [_]. split; reflexivity. Qed.

Lemma total_for_rounds body n : forall i,
  (forall j, total (body j)) -> total (for_rounds n i body).
Proof.
  induction n as [|n IH]; intros i Hbody; [apply total_ret|].
  simpl. apply total_bind; [apply Hbody|]. intros _. apply IH, Hbody.
Qed.

Lemma total_sync_response : total sync_response.
Proof. apply total_bind; [apply total_cout|]. intros _. apply total_cout. Qed.

(** ** Composition: a silent prefix, then a part that cannot fail *)

Lemma completes_or_inert_bind {A C} (Q : A -> Prop) (m : M A) (k : A -> M C) :
  keeps Q m ->
  (forall s, well_formed s -> inert m s) ->
  (forall a, Q a -> completes_or_inert (k a)) ->
  completes_or_inert (bind m k).
Proof.
  intros Hkeep Hin Hk s Hs.
  destruct (Hkeep s Hs) as [Hwf Hq]. destruct (Hin s Hs) as [Hquiet Hnf].
  unfold completes, inert, bind in *.
  destruct (m s) as [a s1|s1|s1|s1]; simpl in *;
    try (right; split; assumption).
  destruct (Hk a (Hq a s1 eq_refl) s1 Hwf)
    as [(c & s2 & e2 & Hr & Ht) | (Hq2 & Hf2)].
  - left. destruct Hquiet as (_ & e1 & Ht1 & _).
    exists c, s2, (e1 ++ e2). split; [exact Hr|].
    rewrite Ht, Ht1, app_assoc. reflexivity.
  - right. split; [|exact Hf2]. exact (quiet_trans _ _ _ Hquiet Hq2).
Qed.

Lemma silent_completes_or_inert {A} (m : M A) : silent m -> completes_or_inert m.
Proof. intros Hm s _. right. apply Hm. Qed.

Lemma total_completes_or_inert {A} (m : M A) : total m -> completes_or_inert m.
Proof. intros Hm s _. left. apply Hm. Qed.

(** One more round of the staging loop. *)
Lemma stage_round n i s b rest :
  input s = b :: rest ->
  0 <= i -> i + Z.of_nat (S n) <= 255 ->
  i < Z.of_nat (length (buf s)) ->
  for_rounds (S n) i stage_body s =
  for_rounds n (i + 1) stage_body
    (emit (EvBufStore i b) (set_buf (<[Z.to_nat i := b]> (buf s)) (set_input rest s))).
Proof.
  intros Hin Hi Hn Hlen.
  simpl. unfold bind at 1, stage_body at 1, bind at 1, cin at 1.
  rewrite Hin. unfold buf_store at 1. simpl.
  replace ((0 <=? i) && (i <? Z.of_nat (length (buf s)))) with true
    by (symmetry; apply andb_true_intro; split;
        [apply Z.leb_le | apply Z.ltb_lt]; lia).
  rewrite wrap8_small by (unfold is_uint8; lia). reflexivity.
Qed.

(** The staging loop is silent as long as it stays inside [buf]. *)
Lemma stage_rounds_inert n : forall i s,
  0 <= i -> i + Z.of_nat n <= 255 ->
  i + Z.of_nat n <= Z.of_nat (length (buf s)) ->
  inert (for_rounds n i stage_body) s.
Proof.
  induction n as [|n IH]; intros i s Hi Hn Hlen.
  - split; [apply quiet_refl | reflexivity].
  - destruct (input s) as [|b rest] eqn:Hin.
    + assert (Hr : for_rounds (S n) i stage_body s = Blocked s)
        by (simpl; unfold bind, stage_body, bind, cin; rewrite Hin; reflexivity).
      unfold inert. rewrite Hr. split; [apply quiet_refl | reflexivity].
    + unfold inert. rewrite (stage_round n i s b rest) by (assumption || lia).
      match goal with
      | |- context [for_rounds n (i + 1) stage_body ?st] => set (s1 := st)
      end.
      assert (Hl1 : length (buf s1) = length (buf s))
        by (subst s1; simpl; apply length_insert).
      destruct (IH (i + 1) s1) as [Hq Hf]; [lia | lia | lia |].
      split; [|exact Hf].
      refine (quiet_trans s s1 _ _ Hq).
      split; [reflexivity|]. exists [EvBufStore i b]. repeat split.
Qed.

(** ** Every handler *)

Ltac silent_prefix lem_keeps lem_silent :=
  eapply completes_or_inert_bind;
  [apply lem_keeps | intros ? _; apply lem_silent | intros ? ?].

Lemma completes_or_inert_PROG_MULTI : completes_or_inert case_PROG_MULTI.
Proof.
  unfold case_PROG_MULTI.
  silent_prefix keeps_cin silent_cin. rename a into count. unfold is_uint8 in *.
  destruct (count >? PROTO_PROG_MULTI_MAX) eqn:Hc;
    [apply silent_completes_or_inert, silent_goto|].
  rewrite Z.gtb_ltb in Hc. apply Z.ltb_ge in Hc.
  unfold for_i. fold stage_body. fold write_body.
  eapply completes_or_inert_bind.
  - apply keeps_for_rounds. intros j. unfold stage_body.
    eapply keeps_bind; [apply keeps_cin|]. intros b _. apply keeps_buf_store.
  - intros s (_ & Hb & _). unfold buf_declared in Hb.
    apply stage_rounds_inert; lia.
  - intros _ _. silent_prefix keeps_cin silent_cin.
    destruct (negb (_ =? PROTO_EOC));
      [apply silent_completes_or_inert, silent_goto|].
    intros s (_ & Hb & _). unfold buf_declared in Hb. left.
    destruct (write_rounds_safe (Z.to_nat count) 0 s) as (s' & evs & Hr & Ht & _);
      try lia.
    exists tt, s', evs. split; assumption.
Qed.

Lemma completes_or_inert_dispatch c : completes_or_inert (dispatch c).
Proof.
  unfold dispatch.
  repeat match goal with
         | |- completes_or_inert (if ?b then _ else _) => destruct b
         end.
  - apply total_completes_or_inert, total_ret.
  - apply total_completes_or_inert. unfold case_GET_DEVICE.
    apply total_bind; [apply total_cout|]. intros _. apply total_cout.
  - apply total_completes_or_inert. intros s. eexists _, _, [_]. split; reflexivity.
  - apply total_completes_or_inert. intros s. eexists _, _, [_]. split; reflexivity.
  - apply silent_completes_or_inert. unfold case_LOAD_ADDRESS, get_uint16.
    apply silent_bind; [|intros a].
    { apply silent_bind; [apply silent_cin|]. intros lo.
      apply silent_bind; [apply silent_cin|]. intros hi. apply silent_ret. }
    apply silent_bind; [|intros _; apply silent_eoc_test].
    apply silent_step. intros s. apply quiet_fields.
  - unfold case_PROG_FLASH.
    silent_prefix keeps_cin silent_cin. silent_prefix keeps_cin silent_cin.
    destruct (negb (_ =? PROTO_EOC));
      [apply silent_completes_or_inert, silent_goto|].
    apply total_completes_or_inert.
    apply total_bind; [apply total_address_post_inc|]. intros ?.
    apply total_flash_write.
  - apply total_completes_or_inert. unfold case_READ_FLASH.
    apply total_bind; [apply total_address_post_inc|]. intros ?.
    apply total_bind; [apply total_flash_read|]. intros ?. apply total_cout.
  - apply completes_or_inert_PROG_MULTI.
  - unfold case_READ_MULTI.
    silent_prefix keeps_cin silent_cin. silent_prefix keeps_cin silent_cin.
    destruct (negb (_ =? PROTO_EOC));
      [apply silent_completes_or_inert, silent_goto|].
    apply total_completes_or_inert. apply total_for_rounds. intros j.
    apply total_bind; [apply total_address_post_inc|]. intros ?.
    apply total_bind; [apply total_flash_read|]. intros ?. apply total_cout.
  - apply silent_completes_or_inert. unfold case_REBOOT.
    apply silent_bind; [|intros ?; apply silent_goto].
    apply silent_step. intros s. apply quiet_fields.
  - apply silent_completes_or_inert, silent_goto.
Qed.

Lemma completes_or_inert_command : completes_or_inert command.
Proof.
  unfold command.
  eapply completes_or_inert_bind;
    [apply keeps_step; intros s Hs; exact Hs
    | intros s0 _; apply silent_step; intros s1; apply quiet_fields
    | intros _ _].
  silent_prefix keeps_cin silent_cin.
  eapply completes_or_inert_bind;
    [apply keeps_step; intros s Hs; exact Hs
    | intros s0 _; apply silent_step; intros s1; apply quiet_fields
    | intros _ _].
  eapply completes_or_inert_bind;
    [apply keeps_common_eoc_test
    | intros ? _; apply silent_common_eoc_test
    | intros _ _; apply completes_or_inert_dispatch].
Qed.

(** The two ways a turn can go. *)
Lemma turn_outcome s :
  well_formed s ->
  (exists s1 evs, command s = Ret tt s1 /\ trace s1 = trace s ++ evs
                  /\ iteration s = Ret tt (emit (EvCout PROTO_OK)
                                            (emit (EvCout PROTO_INSYNC) s1)))
  \/ (inert command s /\ iteration s = match command s with
                                        | CmdBad s1 => Ret tt s1
                                        | r => r
                                        end
      /\ forall s1, command s <> Ret tt s1).
Proof.
  intros Hs. unfold iteration.
  destruct (completes_or_inert_command s Hs)
    as [(a & s1 & evs & Hr & Ht) | Hin].
  - left. destruct a. exists s1, evs. rewrite Hr. repeat split. exact Ht.
  - destruct (command s) as [[] s1|s1|s1|s1] eqn:E.
    + left. destruct Hin as ((_ & evs & Ht & _) & _). rewrite E in Ht.
      exists s1, evs. repeat split. exact Ht.
    + right. split; [exact Hin|]. split; [reflexivity | discriminate].
    + right. split; [exact Hin|]. split; [reflexivity | discriminate].
    + right. split; [exact Hin|]. split; [reflexivity | discriminate].
Qed.

(** X1: whatever bytes arrive, also when they stop in the middle of a
    frame, a turn of the loop either runs to the sync response, or it sends
    nothing, makes no call into the flash driver and leaves the flash
    content as it was. *)
Theorem turn_is_acknowledged_or_inert s :
  well_formed s ->
  (exists s' evs, iteration s = Ret tt s' /\ events_since s s' (evs ++ ack))
  \/ (exists evs, events_since s (final (iteration s)) evs
                  /\ outputs evs = [] /\ flash_ops evs = []
                  /\ fl (final (iteration s)) = fl s).
Proof.
  intros Hs. unfold events_since.
  destruct (turn_outcome s Hs) as [(s1 & evs & _ & Ht & Hit) | (Hin & Hit & _)].
  - left. eexists _, evs. split; [exact Hit|]. simpl. rewrite Ht.
    unfold ack. rewrite <- !app_assoc. reflexivity.
  - right. destruct Hin as ((Hfl & evs & Ht & Ho & Hf) & _).
    exists evs. rewrite Hit.
    destruct (command s) as [[] s1|s1|s1|s1]; simpl in *; repeat split; assumption.
Qed.

(** ** The link is only read forwards *)

Lemma shrinks_bind {A C} (m : M A) (k : A -> M C) :
  steps input_shrinks m -> (forall a, steps input_shrinks (k a)) ->
  steps input_shrinks (bind m k).
Proof.
  apply steps_bind. unfold input_shrinks. intros s1 s2 s3 H1 H2. lia.
Qed.

Lemma shrinks_rounds body n i :
  (forall j, steps input_shrinks (body j)) ->
  steps input_shrinks (for_rounds n i body).
Proof.
  apply steps_for_rounds; unfold input_shrinks; intros; lia.
Qed.

Lemma shrinks_cin : steps input_shrinks cin.
Proof.
  intros s. unfold input_shrinks, cin.
  destruct (input s) as [|b rest] eqn:E; simpl; rewrite ?E; simpl; lia.
Qed.

Ltac shrinks_prim :=
  let s := fresh "s" in
  intros s; unfold input_shrinks, cin, cout, ret, goto_cmd_bad, address_post_inc,
    buf_store, buf_load, do_flash_write_byte, do_flash_read_byte,
    do_flash_erase_app, do_flash_erase_scratch;
  repeat match goal with
         | |- context [match ?x with _ => _ end] => destruct x
         end;
  simpl; lia.

Ltac shrinks :=
  repeat first
    [ apply shrinks_bind; [|intros ?]
    | apply shrinks_rounds; intros ?
    | match goal with
      | |- steps _ (if ?b then _ else _) => destruct b
      end
    | apply shrinks_cin
    | shrinks_prim ].

Lemma shrinks_after_opcode c :
  steps input_shrinks (common_eoc_test c ;; dispatch c).
Proof.
  unfold common_eoc_test, dispatch, case_GET_DEVICE, case_LOAD_ADDRESS,
    case_PROG_FLASH, case_READ_FLASH, case_PROG_MULTI, case_READ_MULTI,
    case_REBOOT, get_uint16, for_i.
  shrinks.
Qed.

Lemma blocks_bind {A C} (m : M A) (k : A -> M C) :
  blocks_on_empty m -> (forall a, blocks_on_empty (k a)) ->
  blocks_on_empty (bind m k).
Proof.
  intros Hm Hk s s'. unfold bind. destruct (m s) as [a s1|s1|s1|s1] eqn:E;
    try discriminate.
  - apply Hk.
  - intros [= <-]. exact (Hm s s1 E).
Qed.

Lemma blocks_rounds body n : forall i,
  (forall j, blocks_on_empty (body j)) -> blocks_on_empty (for_rounds n i body).
Proof.
  induction n as [|n IH]; intros i Hbody; [intros s s'; discriminate|].
  simpl. apply blocks_bind; [apply Hbody|]. intros _. apply IH, Hbody.
Qed.

Lemma blocks_cin : blocks_on_empty cin.
Proof.
  intros s s'. unfold cin. destruct (input s) eqn:E; [|discriminate].
  intros [= <-]. exact E.
Qed.

Ltac blocks_prim :=
  first
    [ apply blocks_cin
    | let s := fresh "s" in
      let s' := fresh "s'" in
      intros s s'; unfold cout, ret, goto_cmd_bad, address_post_inc,
        buf_store, buf_load, do_flash_write_byte, do_flash_read_byte,
        do_flash_erase_app, do_flash_erase_scratch;
      repeat match goal with
             | |- context [match ?x with _ => _ end] => destruct x
             end;
      discriminate ].

Ltac blocks :=
  repeat first
    [ apply blocks_bind; [|intros ?]
    | apply blocks_rounds; intros ?
    | match goal with
      | |- blocks_on_empty (if ?b then _ else _) => destruct b
      end
    | blocks_prim ].

Lemma blocks_command : blocks_on_empty command.
Proof.
  unfold command, common_eoc_test, dispatch, case_GET_DEVICE, case_LOAD_ADDRESS,
    case_PROG_FLASH, case_READ_FLASH, case_PROG_MULTI, case_READ_MULTI,
    case_REBOOT, get_uint16, for_i.
  blocks.
Qed.

Lemma blocks_iteration : blocks_on_empty iteration.
Proof.
  intros s s'. unfold iteration.
  destruct (command s) as [[] s1|s1|s1|s1] eqn:E; try discriminate.
  intros [= <-]. exact (blocks_command s s1 E).
Qed.

(** A turn that returns has taken at least its opcode byte off the link. *)
Lemma iteration_consumes s s' :
  iteration s = Ret tt s' -> (length (input s') < length (input s))%nat.
Proof.
  intros Hit. destruct (input s) as [|c rest] eqn:Hin.
  - exfalso. unfold iteration, command, bind, cin in Hit. simpl in Hit.
    rewrite Hin in Hit. discriminate.
  - unfold iteration in Hit. rewrite (command_opcode s c rest Hin) in Hit.
    pose proof (shrinks_after_opcode c (opcode_read rest s)) as Hsh.
    unfold input_shrinks in Hsh. simpl in Hsh |- *.
    destruct ((common_eoc_test c ;; dispatch c) (opcode_read rest s))
      as [[] s1|s1|s1|s1]; simpl in Hsh; try discriminate.
    + injection Hit as <-. simpl. lia.
    + injection Hit as <-. lia.
Qed.

Lemma iteration_returns_or_blocks s :
  well_formed s ->
  (exists s', iteration s = Ret tt s') \/ (exists s', iteration s = Blocked s').
Proof.
  intros Hs.
  destruct (turn_outcome s Hs) as [(s1 & evs & _ & _ & Hit) | ((_ & Hf) & Hit & Hne)].
  - left. eexists. exact Hit.
  - rewrite Hit. destruct (command s) as [[] s1|s1|s1|s1].
    + exfalso. exact (Hne s1 eq_refl).
    + left. eexists. reflexivity.
    + right. eexists. reflexivity.
    + discriminate.
Qed.

(** ** The main loop on an arbitrary stream of bytes *)

(** X2: whatever bytes arrive and however many turns are taken, the loop
    never accesses [buf] outside its bounds. *)
Theorem main_loop_never_faults n : forall s,
  well_formed s -> is_fault (main_loop n s) = false.
Proof.
  induction n as [|n IH]; intros s Hs; [reflexivity|].
  simpl. unfold bind.
  destruct (keeps_iteration s Hs) as [Hwf _].
  destruct (iteration_returns_or_blocks s Hs) as [[s' Hit] | [s' Hit]];
    rewrite Hit in *; simpl in *; [apply IH, Hwf | reflexivity].
Qed.

(** ** Runs without a reset *)

Lemma suffix_bind {A C} (m : M A) (k : A -> M C) :
  steps input_suffix m -> (forall a, steps input_suffix (k a)) ->
  steps input_suffix (bind m k).
Proof.
  apply steps_bind. unfold input_suffix. intros s1 s2 s3 H1 H2.
  etransitivity; eassumption.
Qed.

Lemma suffix_rounds body n i :
  (forall j, steps input_suffix (body j)) ->
  steps input_suffix (for_rounds n i body).
Proof.
  apply steps_for_rounds; unfold input_suffix.
  - intros s. reflexivity.
  - intros s1 s2 s3 H1 H2. etransitivity; eassumption.
Qed.

Lemma suffix_cin : steps input_suffix cin.
Proof.
  intros s. unfold input_suffix, cin.
  destruct (input s) as [|b rest] eqn:E; simpl; rewrite ?E;
    [reflexivity | apply suffix_cons_r; reflexivity].
Qed.

Ltac suffix_prim :=
  let s := fresh "s" in
  intros s; unfold input_suffix, cout, ret, goto_cmd_bad, address_post_inc,
    buf_store, buf_load, do_flash_write_byte, do_flash_read_byte,
    do_flash_erase_app, do_flash_erase_scratch;
  repeat match goal with
         | |- context [match ?x with _ => _ end] => destruct x
         end;
  simpl; reflexivity.

Ltac suffix_walk :=
  repeat first
    [ apply suffix_bind; [|intros ?]
    | apply suffix_rounds; intros ?
    | match goal with
      | |- steps _ (if ?b then _ else _) => destruct b
      end
    | apply suffix_cin
    | suffix_prim ].

(** What a turn leaves on the link is the end of what it found there. *)
Lemma iteration_input_suffix s :
  input (final (iteration s)) `suffix_of` input s.
Proof.
  assert (Hc : steps input_suffix command).
  { unfold command, common_eoc_test, dispatch, case_GET_DEVICE,
      case_LOAD_ADDRESS, case_PROG_FLASH, case_READ_FLASH, case_PROG_MULTI,
      case_READ_MULTI, case_REBOOT, get_uint16, for_i.
    suffix_walk. }
  specialize (Hc s). unfold input_suffix in Hc. unfold iteration.
  destruct (command s) as [[] s1|s1|s1|s1]; simpl in *; exact Hc.
Qed.

Lemma RSTSRC_kept_bind {A C} (m : M A) (k : A -> M C) :
  steps RSTSRC_kept m -> (forall a, steps RSTSRC_kept (k a)) ->
  steps RSTSRC_kept (bind m k).
Proof.
  apply steps_bind. unfold RSTSRC_kept. intros s1 s2 s3 H1 H2. congruence.
Qed.

Lemma RSTSRC_kept_rounds body n i :
  (forall j, steps RSTSRC_kept (body j)) ->
  steps RSTSRC_kept (for_rounds n i body).
Proof.
  apply steps_for_rounds; unfold RSTSRC_kept; [reflexivity|].
  intros s1 s2 s3 H1 H2. congruence.
Qed.

Ltac RSTSRC_kept_prim :=
  let s := fresh "s" in
  intros s; unfold RSTSRC_kept, cin, cout, ret, goto_cmd_bad, address_post_inc,
    buf_store, buf_load, do_flash_write_byte, do_flash_read_byte,
    do_flash_erase_app, do_flash_erase_scratch;
  repeat match goal with
         | |- context [match ?x with _ => _ end] => destruct x
         end;
  reflexivity.

Ltac RSTSRC_kept_walk :=
  repeat first
    [ apply RSTSRC_kept_bind; [|intros ?]
    | apply RSTSRC_kept_rounds; intros ?
    | match goal with
      | |- steps _ (if ?x =? ?y then _ else _) =>
          destruct (Z.eqb_spec x y); [try contradiction|]
      | |- steps _ (if ?b then _ else _) => destruct b
      end
    | RSTSRC_kept_prim ].

(** Only a turn that starts with the [REBOOT] opcode writes [RSTSRC]. *)
Lemma iteration_keeps_RSTSRC s :
  PROTO_REBOOT ∉ input s -> RSTSRC (final (iteration s)) = RSTSRC s.
Proof.
  intros Hno. destruct (input s) as [|c rest] eqn:Hin.
  - unfold iteration, command, bind, cin. simpl. rewrite Hin. reflexivity.
  - assert (Hc : c <> PROTO_REBOOT).
    { intros ->. apply Hno. apply elem_of_cons. left. reflexivity. }
    assert (Hafter : steps RSTSRC_kept (common_eoc_test c ;; dispatch c)).
    { unfold common_eoc_test, dispatch, case_GET_DEVICE, case_LOAD_ADDRESS,
        case_PROG_FLASH, case_READ_FLASH, case_PROG_MULTI, case_READ_MULTI,
        get_uint16, for_i.
      RSTSRC_kept_walk. }
    unfold iteration. rewrite (command_opcode s c rest Hin).
    specialize (Hafter (opcode_read rest s)). unfold RSTSRC_kept in Hafter.
    destruct ((common_eoc_test c ;; dispatch c) (opcode_read rest s))
      as [[] s1|s1|s1|s1]; simpl in *; exact Hafter.
Qed.

(** X3: the loop has no exit of its own. On a stream of bytes in which the
    [REBOOT] opcode does not occur, no turn asks for the reset that takes
    the device out of the loop ([RSTSRC] is never written), and once the
    bytes are used up the loop waits in [cin()], with nothing left
    unread. *)
Theorem main_loop_ends_waiting_for_input n : forall s,
  well_formed s ->
  PROTO_REBOOT ∉ input s ->
  (length (input s) < n)%nat ->
  exists s', main_loop n s = Blocked s' /\ input s' = []
             /\ RSTSRC s' = RSTSRC s.
Proof.
  induction n as [|n IH]; intros s Hs Hno Hn; [lia|].
  simpl. unfold bind.
  destruct (keeps_iteration s Hs) as [Hwf _].
  pose proof (iteration_keeps_RSTSRC s Hno) as Hrst.
  pose proof (iteration_input_suffix s) as Hsuf.
  destruct (iteration_returns_or_blocks s Hs) as [[s' Hit] | [s' Hit]].
  - pose proof (iteration_consumes s s' Hit) as Hlt.
    rewrite Hit in *. simpl in Hwf, Hrst, Hsuf.
    destruct (IH s' Hwf) as (s2 & Hr & Hi & Hrst2); [|lia|].
    + intros Hel. apply Hno. exact (elem_of_suffix _ _ _ Hel Hsuf).
    + exists s2. repeat split; try assumption. congruence.
  - rewrite Hit in *. simpl in Hrst. exists s'. split; [reflexivity|].
    split; [exact (blocks_iteration s s' Hit) | exact Hrst].
Qed.

(** ** What each opcode can touch *)

Lemma flash_kept_fields s a b r l i :
  flash_kept s (mkState a b (fl s) r l i (trace s)).
Proof.
  split; [reflexivity|]. exists []. simpl. rewrite app_nil_r.
  split; [reflexivity | constructor].
Qed.

Lemma flash_kept_fields_emit s a b r l i e :
  is_flash_change e = false ->
  flash_kept s (mkState a b (fl s) r l i (trace s ++ [e])).
Proof.
  intros He. split; [reflexivity|]. exists [e]. split; [reflexivity|].
  repeat constructor. exact He.
Qed.

Lemma flash_kept_bind {A C} (m : M A) (k : A -> M C) :
  steps flash_kept m -> (forall a, steps flash_kept (k a)) ->
  steps flash_kept (bind m k).
Proof. apply steps_bind. exact flash_kept_trans. Qed.

Lemma flash_kept_rounds body n i :
  (forall j, steps flash_kept (body j)) -> steps flash_kept (for_rounds n i body).
Proof. apply steps_for_rounds; [exact flash_kept_refl | exact flash_kept_trans]. Qed.

Ltac flash_kept_prim :=
  let s := fresh "s" in
  intros s; unfold cin, cout, ret, goto_cmd_bad, address_post_inc,
    do_flash_read_byte;
  repeat match goal with
         | |- context [match ?x with _ => _ end] => destruct x
         end;
  simpl;
  first [ apply flash_kept_refl
        | apply flash_kept_fields
        | apply flash_kept_fields_emit; reflexivity ].

Ltac flash_kept_walk :=
  repeat first
    [ apply flash_kept_bind; [|intros ?]
    | apply flash_kept_rounds; intros ?
    | match goal with
      | |- steps _ (if ?x =? ?y then _ else _) =>
          destruct (Z.eqb_spec x y); [try contradiction|]
      | |- steps _ (if ?b then _ else _) => destruct b
      end
    | flash_kept_prim ].

(** X4: only [CHIP_ERASE], [PARAM_ERASE], [PROG_FLASH] and [PROG_MULTI] can
    change the flash: a turn that starts with any other byte, whatever
    follows it, never erases or programs, and leaves the flash content as
    it was. *)
Theorem other_opcodes_keep_flash s c rest :
  input s = c :: rest ->
  c <> PROTO_CHIP_ERASE -> c <> PROTO_PARAM_ERASE ->
  c <> PROTO_PROG_FLASH -> c <> PROTO_PROG_MULTI ->
  fl (final (iteration s)) = fl s
  /\ exists evs, events_since s (final (iteration s)) evs
                 /\ Forall (fun e => is_flash_change e = false) evs.
Proof.
  intros Hin H1 H2 H3 H4.
  assert (Hafter : steps flash_kept (common_eoc_test c ;; dispatch c)).
  { unfold common_eoc_test, dispatch, case_GET_DEVICE, case_LOAD_ADDRESS,
      case_READ_FLASH, case_READ_MULTI, case_REBOOT, get_uint16, for_i.
    flash_kept_walk. }
  change (flash_kept s (final (iteration s))).
  unfold iteration. rewrite (command_opcode s c rest Hin).
  specialize (Hafter (opcode_read rest s)).
  assert (H0 : flash_kept s (opcode_read rest s)) by apply flash_kept_fields.
  destruct ((common_eoc_test c ;; dispatch c) (opcode_read rest s))
    as [[] s1|s1|s1|s1]; simpl in *;
    try exact (flash_kept_trans _ _ _ H0 Hafter).
  refine (flash_kept_trans _ _ _ (flash_kept_trans _ _ _ H0 Hafter) _).
  split; [reflexivity|]. exists ack. simpl. rewrite <- app_assoc.
  split; [reflexivity|]. repeat constructor.
Qed.

Lemma address_kept_bind {A C} (m : M A) (k : A -> M C) :
  steps address_kept m -> (forall a, steps address_kept (k a)) ->
  steps address_kept (bind m k).
Proof.
  apply steps_bind. unfold address_kept. intros s1 s2 s3 H1 H2. congruence.
Qed.

Ltac address_kept_prim :=
  let s := fresh "s" in
  intros s; unfold address_kept, cin, cout, ret, goto_cmd_bad,
    do_flash_erase_app, do_flash_erase_scratch;
  repeat match goal with
         | |- context [match ?x with _ => _ end] => destruct x
         end;
  reflexivity.

Ltac address_kept_walk :=
  repeat first
    [ apply address_kept_bind; [|intros ?]
    | match goal with
      | |- steps _ (if ?x =? ?y then _ else _) =>
          destruct (Z.eqb_spec x y); [try contradiction|]
      | |- steps _ (if ?b then _ else _) => destruct b
      end
    | address_kept_prim ].

(** X5: [address] moves only through [LOAD_ADDRESS] and the four transfer
    commands: a turn that starts with any other byte, whatever follows it,
    leaves [address] as it was; the erase commands in particular do not
    reset it. *)
Theorem other_opcodes_keep_address s c rest :
  input s = c :: rest ->
  c <> PROTO_LOAD_ADDRESS -> c <> PROTO_PROG_FLASH -> c <> PROTO_READ_FLASH ->
  c <> PROTO_PROG_MULTI -> c <> PROTO_READ_MULTI ->
  address (final (iteration s)) = address s.
Proof.
  intros Hin H1 H2 H3 H4 H5.
  assert (Hafter : steps address_kept (common_eoc_test c ;; dispatch c)).
  { unfold common_eoc_test, dispatch, case_GET_DEVICE, case_REBOOT.
    address_kept_walk. }
  unfold iteration. rewrite (command_opcode s c rest Hin).
  specialize (Hafter (opcode_read rest s)). unfold address_kept in Hafter.
  destruct ((common_eoc_test c ;; dispatch c) (opcode_read rest s))
    as [[] s1|s1|s1|s1]; simpl in *; exact Hafter.
Qed.

End Turns.

(** * Sequences of frames *)

Section Sequences.

Context {P : Protocol} {B : Board} {F : FlashDriver}.

(** ** Repeated sync requests *)

(** X6: [n] sync requests in a row get [n] sync responses and change
    neither [address] nor [buf] nor the flash; no call into the flash
    driver is made. *)
Theorem get_sync_is_idempotent n : forall s rest,
  input s = get_sync_frames n ++ rest ->
  exists s' evs,
    main_loop n s = Ret tt s' /\ events_since s s' evs
    /\ outputs evs = mjoin (replicate n [PROTO_INSYNC; PROTO_OK])
    /\ flash_ops evs = []
    /\ address s' = address s /\ buf s' = buf s /\ fl s' = fl s
    /\ input s' = rest.
Proof.
  unfold events_since.
  induction n as [|n IH]; intros s rest Hin.
  - exists s, []. simpl in *. rewrite app_nil_r. repeat split. exact Hin.
  - change (get_sync_frames (S n))
      with ([PROTO_GET_SYNC; PROTO_EOC] ++ get_sync_frames n) in Hin.
    simpl in Hin. simpl main_loop. unfold bind.
    rewrite (run_GET_SYNC s _ Hin).
    match goal with |- context [main_loop n ?st] => set (s1 := st) end.
    destruct (IH s1 rest eq_refl)
      as (s' & evs & Hr & Ht & Ho & Hf & Ha & Hb & Hfl & Hi).
    exists s', (ack ++ evs). rewrite Hr, Ht. subst s1. simpl in *.
    rewrite <- !app_assoc, Ho, Hf. repeat split; assumption.
Qed.

(** ** Programming byte by byte *)

Lemma prog_flash_frames_cons d data :
  prog_flash_frames (d :: data)
  = PROTO_PROG_FLASH :: d :: PROTO_EOC :: prog_flash_frames data.
Proof. reflexivity. Qed.

(** X7: a sequence of [PROG_FLASH] frames programs its bytes at [address],
    [address + 1], ... (modulo 2^16) in the order sent: the same calls into
    the flash driver, the same flash content and the same final [address]
    as one [PROG_MULTI] frame with these bytes, for any number of bytes. *)
Theorem prog_flash_frames_program_in_sequence data : forall s rest,
  distinct_opcodes ->
  is_uint16 (address s) ->
  input s = prog_flash_frames data ++ rest ->
  exists s' evs,
    main_loop (length data) s = Ret tt s' /\ events_since s s' evs
    /\ flash_ops evs = write_events (sequential (address s) data)
    /\ fl s' = program (fl s) (sequential (address s) data)
    /\ address s' = wrap16 (address s + Z.of_nat (length data))
    /\ input s' = rest.
Proof.
  unfold events_since.
  induction data as [|d data IH]; intros s rest Hd Ha Hin.
  - exists s, []. simpl in *. rewrite app_nil_r, Z.add_0_r, (wrap16_small _ Ha).
    repeat split. exact Hin.
  - rewrite prog_flash_frames_cons in Hin. simpl in Hin.
    simpl main_loop. unfold bind. rewrite (run_PROG_FLASH s d _ Hd Hin).
    match goal with |- context [main_loop _ ?st] => set (s1 := st) end.
    destruct (IH s1 rest Hd (wrap16_range _) eq_refl)
      as (s' & evs & Hr & Ht & Hf & Hfl & Hadr & Hi).
    exists s', ([EvFlashWrite (address s) d] ++ ack ++ evs).
    rewrite Hr, Ht, (sequential_cons _ _ _ Ha). subst s1. simpl in *.
    rewrite <- !app_assoc, Hf. repeat split; try assumption.
    rewrite Hadr, wrap16_succ. f_equal. lia.
Qed.

(** ** Reading back what was programmed *)

Lemma program_snoc f w x :
  program f (w ++ [x]) = flash_write_byte (program f w) x.1 x.2.
Proof. unfold program. rewrite foldl_app. reflexivity. Qed.

Lemma sequential_snoc a data d :
  sequential a (data ++ [d])
  = sequential a data ++ [(wrap16 (a + Z.of_nat (length data)), d)].
Proof.
  unfold sequential. rewrite imap_app. simpl. rewrite Nat.add_0_r. reflexivity.
Qed.

Lemma wrap16_apart a j k :
  0 <= k < j -> j < 65536 -> wrap16 (a + j) <> wrap16 (a + k).
Proof.
  unfold wrap16. intros Hk Hj Heq.
  assert (H0 : (a + j - (a + k)) mod 65536 = 0)
    by (rewrite Zminus_mod, Heq, Z.sub_diag; reflexivity).
  replace (a + j - (a + k)) with (j - k) in H0 by lia.
  rewrite Z.mod_small in H0 by lia. lia.
Qed.

(** With a driver whose cells read back what was written, each cell just
    programmed yields its byte. *)
Lemma read_after_program data : forall f a k d,
  reads_back_writes ->
  Z.of_nat (length data) <= 65536 ->
  data !! k = Some d ->
  flash_read_byte (program f (sequential a data)) (wrap16 (a + Z.of_nat k)) = d.
Proof.
  induction data as [|x data IH] using rev_ind; intros f a k d Hlaw Hlen Hk.
  - discriminate.
  - destruct Hlaw as [Hsame Hother].
    rewrite length_app in Hlen. simpl in Hlen.
    rewrite sequential_snoc, program_snoc. simpl.
    destruct (Nat.eq_dec k (length data)) as [->|Hne].
    + rewrite list_lookup_middle in Hk by reflexivity. injection Hk as ->.
      apply Hsame.
    + assert (Hlt : (k < length data)%nat).
      { apply lookup_lt_Some in Hk. rewrite length_app in Hk. simpl in Hk. lia. }
      rewrite lookup_app_l in Hk by exact Hlt.
      rewrite Hother by (apply wrap16_apart; lia).
      apply IH; [split; assumption | lia | exact Hk].
Qed.

(** X8: with such a driver, programming [data] with [PROG_MULTI] at some
    address, loading that address again and reading the same number of
    bytes with [READ_MULTI] sends back exactly [data], followed by the sync
    response. *)
Theorem prog_multi_read_multi_round_trip s data lo hi rest :
  distinct_opcodes ->
  reads_back_writes ->
  buf_declared s ->
  is_uint8 lo -> is_uint8 hi ->
  address s = Z.lor lo (Z.shiftl hi 8) ->
  is_uint8 (Z.of_nat (length data)) ->
  Z.of_nat (length data) <= PROTO_PROG_MULTI_MAX ->
  input s = PROTO_PROG_MULTI :: Z.of_nat (length data) :: data
            ++ PROTO_EOC :: PROTO_LOAD_ADDRESS :: lo :: hi :: PROTO_EOC
            :: PROTO_READ_MULTI :: Z.of_nat (length data) :: PROTO_EOC :: rest ->
  exists s2 s3 evs,
    main_loop 2 s = Ret tt s2 /\ address s2 = address s
    /\ iteration s2 = Ret tt s3 /\ events_since s2 s3 evs
    /\ outputs evs = data ++ [PROTO_INSYNC; PROTO_OK].
Proof.
  intros Hd Hlaw Hb Hlo Hhi Hadr H8 Hc Hin.
  assert (Ha : is_uint16 (address s))
    by (rewrite Hadr; apply uint16_of_bytes; assumption).
  pose proof (run_PROG_MULTI s data _ Hd Hc H8 Hb Ha Hin) as H1.
  match type of H1 with _ = Ret tt ?st => set (s1 := st) in * end.
  pose proof (run_LOAD_ADDRESS s1 lo hi _ Hd eq_refl) as H2.
  rewrite (shift_high_byte hi Hhi), <- Hadr in H2.
  match type of H2 with _ = Ret tt ?st => set (s2 := st) in * end.
  assert (H8' := H8). unfold is_uint8 in H8'.
  pose proof (run_READ_MULTI s2 (Z.of_nat (length data)) rest Hd
                ltac:(lia) Ha eq_refl) as H3.
  match type of H3 with _ = Ret tt ?st => set (s3 := st) in * end.
  exists s2, s3, (read_events (fl s2) (address s2) (Z.of_nat (length data)) ++ ack).
  split; [simpl; unfold bind; rewrite H1, H2; reflexivity|].
  split; [reflexivity|]. split; [exact H3|]. split; [reflexivity|].
  destruct (read_events_projections (fl s2) (address s2) (Z.of_nat (length data)))
    as (Ho & _).
  rewrite outputs_app, Ho. simpl. f_equal.
  apply list_eq. intros k. rewrite list_lookup_fmap.
  destruct (data !! k) as [d|] eqn:Hk.
  - rewrite lookup_seqZ_lt by (apply lookup_lt_Some in Hk; lia). simpl.
    f_equal. apply read_after_program; [exact Hlaw | lia | exact Hk].
  - rewrite lookup_seqZ_ge by (apply lookup_ge_None in Hk; lia). reflexivity.
Qed.

End Sequences.

(** * Single commands, continued *)

Section Commands.

Context {P : Protocol} {B : Board} {F : FlashDriver}.

(** ** The address bytes *)

Lemma low_and_high_byte_disjoint lo hi :
  is_uint8 lo -> 0 <= hi -> Z.land lo (Z.shiftl hi 8) = 0.
Proof.
  unfold is_uint8. intros Hlo Hhi. apply Z.bits_inj'. intros n Hn.
  rewrite Z.land_spec, Z.bits_0.
  destruct (Z.lt_ge_cases n 8) as [Hlt|Hge].
  - rewrite (Z.shiftl_spec_low hi 8 n Hlt). apply andb_false_r.
  - destruct (Z.eq_dec lo 0) as [->|Hnz]; [rewrite Z.bits_0; reflexivity|].
    rewrite (Z.bits_above_log2 lo n); [reflexivity | lia |].
    assert (Z.log2 lo < 8) by (apply Z.log2_lt_pow2; [lia|]; change (2 ^ 8) with 256; lia).
    lia.
Qed.

(** [get_uint16] decodes little-endian. *)
Lemma lor_bytes lo hi :
  is_uint8 lo -> is_uint8 hi -> Z.lor lo (Z.shiftl hi 8) = lo + 256 * hi.
Proof.
  intros Hlo Hhi.
  assert (Hl : Z.land lo (Z.shiftl hi 8) = 0)
    by (apply low_and_high_byte_disjoint; [assumption | unfold is_uint8 in Hhi; lia]).
  rewrite <- (Z.lxor_lor _ _ Hl), <- (Z.add_nocarry_lxor _ _ Hl).
  rewrite Z.shiftl_mul_pow2 by lia. change (2 ^ 8) with 256. lia.
Qed.

(** X9: the two argument bytes of [LOAD_ADDRESS] are the low byte and then
    the high byte of the address: the frame sets [address] to
    [lo + 256 * hi], from which both bytes can be recovered, and every
    16-bit address [a] is loaded by the bytes [a mod 256], [a / 256]. *)
Theorem load_address_is_little_endian s rest :
  distinct_opcodes ->
  (forall lo hi,
     is_uint8 lo -> is_uint8 hi ->
     input s = PROTO_LOAD_ADDRESS :: lo :: hi :: PROTO_EOC :: rest ->
     exists s', iteration s = Ret tt s' /\ address s' = lo + 256 * hi
                /\ address s' mod 256 = lo /\ address s' / 256 = hi)
  /\ (forall a,
      is_uint16 a ->
      input s = PROTO_LOAD_ADDRESS :: a mod 256 :: a / 256 :: PROTO_EOC :: rest ->
      exists s', iteration s = Ret tt s' /\ address s' = a).
Proof.
  intros Hd. split.
  - intros lo hi Hlo Hhi Hin.
    rewrite (run_LOAD_ADDRESS s lo hi rest Hd Hin).
    rewrite (shift_high_byte hi Hhi), (lor_bytes lo hi Hlo Hhi).
    eexists. split; [reflexivity|]. simpl. unfold is_uint8 in *.
    split; [reflexivity|]. split.
    + replace (lo + 256 * hi) with (lo + hi * 256) by lia.
      rewrite Z.mod_add by lia. apply Z.mod_small. lia.
    + replace (lo + 256 * hi) with (lo + hi * 256) by lia.
      rewrite Z.div_add by lia. rewrite (Z.div_small lo 256) by lia. lia.
  - intros a Ha Hin. unfold is_uint16 in Ha.
    assert (Hlo : is_uint8 (a mod 256))
      by (unfold is_uint8; apply Z.mod_pos_bound; lia).
    assert (Hhi : is_uint8 (a / 256)).
    { unfold is_uint8. split; [apply Z.div_pos; lia|].
      apply Z.div_lt_upper_bound; lia. }
    rewrite (run_LOAD_ADDRESS s _ _ rest Hd Hin).
    rewrite (shift_high_byte _ Hhi), (lor_bytes _ _ Hlo Hhi).
    eexists. split; [reflexivity|]. simpl.
    rewrite (Z.div_mod a 256) at 3 by lia. lia.
Qed.

(** ** Reboot *)

(** X10: [REBOOT] sets bit 4 of [RSTSRC] and no other bit, takes no
    end-of-command byte off the link and is never acknowledged; [address]
    and the flash are as before. *)
Theorem reboot_sets_the_reset_bit_only s rest :
  distinct_opcodes ->
  input s = PROTO_REBOOT :: rest ->
  exists s',
    iteration s = Ret tt s'
    /\ Z.testbit (RSTSRC s') 4 = true
    /\ (forall k, k <> 4 -> Z.testbit (RSTSRC s') k = Z.testbit (RSTSRC s) k)
    /\ trace s' = trace s /\ input s' = rest
    /\ address s' = address s /\ fl s' = fl s /\ buf s' = buf s.
Proof.
  intros Hd Hin. rewrite (run_REBOOT s rest Hd Hin).
  eexists. split; [reflexivity|]. cbn [RSTSRC trace input address fl buf].
  change (Z.shiftl 1 4) with (2 ^ 4).
  split; [|split; [|repeat split]].
  - rewrite Z.lor_spec, Z.pow2_bits_true by lia. apply orb_true_r.
  - intros k Hk. destruct (Z.lt_ge_cases k 0) as [Hneg|Hpos].
    + rewrite !Z.testbit_neg_r by assumption. reflexivity.
    + rewrite Z.lor_spec, Z.pow2_bits_false by lia. apply orb_false_r.
Qed.

(** ** Erasing *)

(** X11: [CHIP_ERASE] calls [flash_erase_app] once and nothing else of the
    flash driver, [PARAM_ERASE] likewise [flash_erase_scratch]; neither
    moves [address]. *)
Theorem erase_commands_call_their_erase_once s rest :
  distinct_opcodes ->
  (input s = PROTO_CHIP_ERASE :: PROTO_EOC :: rest ->
   exists s' evs,
     iteration s = Ret tt s' /\ events_since s s' evs
     /\ flash_ops evs = [EvEraseApp]
     /\ fl s' = flash_erase_app (fl s) /\ address s' = address s)
  /\ (input s = PROTO_PARAM_ERASE :: PROTO_EOC :: rest ->
      exists s' evs,
        iteration s = Ret tt s' /\ events_since s s' evs
        /\ flash_ops evs = [EvEraseScratch]
        /\ fl s' = flash_erase_scratch (fl s) /\ address s' = address s).
Proof.
  intros Hd. unfold events_since. split; intros Hin.
  - rewrite (run_CHIP_ERASE s rest Hd Hin). eexists _, _. simpl. repeat split.
  - rewrite (run_PARAM_ERASE s rest Hd Hin). eexists _, _. simpl. repeat split.
Qed.

End Commands.

(** * Reading byte by byte, and the first command after reset *)

Section Reading.

Context {P : Protocol} {B : Board} {F : FlashDriver}.

Lemma seqZ_succ n :
  seqZ 0 (Z.of_nat (S n)) = 0 :: (Z.add 1 <$> seqZ 0 (Z.of_nat n)).
Proof.
  rewrite seqZ_cons by lia. f_equal.
  replace (Z.pred (Z.of_nat (S n))) with (Z.of_nat n) by lia.
  change (Z.succ 0) with (1 + 0). rewrite fmap_add_seqZ. reflexivity.
Qed.

(** X12: a sequence of [n] [READ_FLASH] frames reads the cells at
    [address], [address + 1], ... (modulo 2^16) in order, the same calls
    into the flash driver as one [READ_MULTI] frame with count [n], for any
    [n], and leaves [address] advanced by [n] modulo 2^16 and the flash as
    it was. *)
Theorem read_flash_frames_read_in_sequence n : forall s rest,
  distinct_opcodes ->
  is_uint16 (address s) ->
  input s = read_flash_frames n ++ rest ->
  exists s' evs,
    main_loop n s = Ret tt s' /\ events_since s s' evs
    /\ flash_ops evs
       = (fun k => EvFlashRead (wrap16 (address s + k))
                     (flash_read_byte (fl s) (wrap16 (address s + k))))
         <$> seqZ 0 (Z.of_nat n)
    /\ address s' = wrap16 (address s + Z.of_nat n)
    /\ fl s' = fl s /\ input s' = rest.
Proof.
  unfold events_since.
  induction n as [|n IH]; intros s rest Hd Ha Hin.
  - exists s, []. simpl in *. rewrite app_nil_r, Z.add_0_r, (wrap16_small _ Ha).
    repeat split. exact Hin.
  - change (read_flash_frames (S n))
      with ([PROTO_READ_FLASH; PROTO_EOC] ++ read_flash_frames n) in Hin.
    simpl in Hin. simpl main_loop. unfold bind.
    rewrite (run_READ_FLASH s _ Hd Hin).
    match goal with |- context [main_loop n ?st] => set (s1 := st) end.
    destruct (IH s1 rest Hd (wrap16_range _) eq_refl)
      as (s' & evs & Hr & Ht & Hf & Hadr & Hfl & Hi).
    exists s', (([EvFlashRead (address s) (flash_read_byte (fl s) (address s));
                  EvCout (flash_read_byte (fl s) (address s))] ++ ack) ++ evs).
    rewrite Hr, Ht. subst s1.
    cbn [trace address fl input] in *.
    split; [reflexivity|]. split; [rewrite <- !app_assoc; reflexivity|].
    split; [|split; [|split; assumption]].
    + rewrite flash_ops_app, Hf, seqZ_succ. simpl.
      rewrite Z.add_0_r, (wrap16_small _ Ha). f_equal.
      rewrite <- list_fmap_compose. apply list_fmap_ext. intros _ k _. simpl.
      rewrite wrap16_succ. replace (address s + (k + 1)) with (address s + (1 + k)) by lia.
      reflexivity.
    + rewrite Hadr, wrap16_succ. f_equal. lia.
Qed.

(** X13: when [bootloader()] does not jump to the application, the command
    loop starts with [address] at 0: a [READ_MULTI] as first command sends
    the bytes of the cells 0, 1, ..., [n - 1]. *)
Theorem first_command_reads_from_address_zero rstsrc button f b n rest :
  distinct_opcodes ->
  boot_gate rstsrc f button = false ->
  is_uint8 n ->
  exists s' evs,
    bootloader rstsrc button f b
      (PROTO_READ_MULTI :: n :: PROTO_EOC :: rest) 1
    = CommandLoop (Ret tt s')
    /\ trace s' = evs
    /\ outputs evs
       = (flash_read_byte f <$> seqZ 0 n) ++ [PROTO_INSYNC; PROTO_OK]
    /\ address s' = n.
Proof.
  intros Hd Hgate H8. unfold bootloader. rewrite Hgate.
  assert (H8' := H8). unfold is_uint8 in H8'.
  simpl main_loop. unfold bind.
  rewrite (run_READ_MULTI (loop_entry rstsrc f b _) n rest Hd);
    [| lia | unfold is_uint16; simpl; lia | reflexivity].
  eexists _, _. split; [reflexivity|]. split; [reflexivity|].
  cbn [trace address fl loop_entry]. rewrite app_nil_l.
  destruct (read_events_projections f 0 n) as (Ho & _).
  split.
  - rewrite outputs_app, Ho. simpl. f_equal.
    apply list_fmap_ext. intros i k Hk.
    apply lookup_seqZ in Hk. rewrite wrap16_small; [reflexivity|].
    unfold is_uint16. lia.
  - apply wrap16_small. unfold is_uint16. lia.
Qed.

End Reading.

(** * The further properties on the sample configuration *)

Lemma sample_state_well_formed inp :
  Forall is_uint8 inp -> well_formed (sample_state inp).
Proof.
  intros Hin. split; [unfold is_uint16; simpl; lia|]. split; [reflexivity|].
  exact Hin.
Defined.

Lemma sample_flash_reads_back_writes : reads_back_writes.
Proof.
  split.
  - intros f a v. simpl. rewrite Z.eqb_refl. reflexivity.
  - intros f a a' v Hne. simpl. rewrite (proj2 (Z.eqb_neq a a') Hne). reflexivity.
Defined.

Lemma turn_witness :
  let s := sample_state [0x27; 3; 7] in
  (exists s' evs, iteration s = Ret tt s' /\ events_since s s' (evs ++ ack))
  \/ (exists evs, events_since s (final (iteration s)) evs
                  /\ outputs evs = [] /\ flash_ops evs = []
                  /\ fl (final (iteration s)) = fl s).
Proof.
  intros s. apply (turn_is_acknowledged_or_inert s).
  apply sample_state_well_formed. repeat constructor; unfold is_uint8; lia.
Defined.

Lemma never_faults_witness :
  is_fault (main_loop 3 (sample_state [0x27; 2; 7; 8; 0x20; 0x28; 40; 0x20; 0x27; 33]))
  = false.
Proof.
  apply (main_loop_never_faults 3).
  apply sample_state_well_formed. repeat constructor; unfold is_uint8; lia.
Defined.

Lemma ends_waiting_witness :
  let s := sample_state [0x21; 0x20; 0x24] in
  exists s', main_loop 4 s = Blocked s' /\ input s' = []
             /\ RSTSRC s' = RSTSRC s.
Proof.
  intros s. apply (main_loop_ends_waiting_for_input 4).
  - apply sample_state_well_formed. repeat constructor; unfold is_uint8; lia.
  - compute_done.
  - simpl. lia.
Defined.

Lemma keep_flash_witness :
  let s := sample_state [0x28; 2; 0x20] in
  fl (final (iteration s)) = fl s
  /\ exists evs, events_since s (final (iteration s)) evs
                 /\ Forall (fun e => is_flash_change e = false) evs.
Proof.
  intros s. apply (other_opcodes_keep_flash s 0x28 [2; 0x20]).
  - reflexivity.
  - compute_done.
  - compute_done.
  - compute_done.
  - compute_done.
Defined.

Lemma keep_address_witness :
  let s := sample_state_at 0x1234 [0x23; 0x20] in
  address (final (iteration s)) = 0x1234.
Proof.
  intros s. apply (other_opcodes_keep_address s 0x23 [0x20]).
  - reflexivity.
  - compute_done.
  - compute_done.
  - compute_done.
  - compute_done.
  - compute_done.
Defined.

Lemma get_sync_witness :
  let s := sample_state_at 0x1234 [0x21; 0x20; 0x21; 0x20; 0x26] in
  exists s' evs,
    main_loop 2 s = Ret tt s' /\ events_since s s' evs
    /\ outputs evs = [0x12; 0x10; 0x12; 0x10]
    /\ flash_ops evs = []
    /\ address s' = address s /\ buf s' = buf s /\ fl s' = fl s
    /\ input s' = [0x26].
Proof.
  intros s. exact (get_sync_is_idempotent 2 s [0x26] eq_refl).
Defined.

Lemma prog_flash_frames_witness :
  let s := sample_state_at 0xFFFF [0x25; 7; 0x20; 0x25; 8; 0x20] in
  exists s' evs,
    main_loop 2 s = Ret tt s' /\ events_since s s' evs
    /\ flash_ops evs = [EvFlashWrite 0xFFFF 7; EvFlashWrite 0 8]
    /\ fl s' = [(0, 8); (0xFFFF, 7)]
    /\ address s' = 1
    /\ input s' = [].
Proof.
  intros s. apply (prog_flash_frames_program_in_sequence [7; 8] s []).
  - compute_done.
  - unfold is_uint16; simpl; lia.
  - reflexivity.
Defined.

Lemma round_trip_witness :
  let s := sample_state_at 0x1234
             [0x27; 3; 7; 8; 9; 0x20; 0x24; 0x34; 0x12; 0x20; 0x28; 3; 0x20] in
  exists s2 s3 evs,
    main_loop 2 s = Ret tt s2 /\ address s2 = address s
    /\ iteration s2 = Ret tt s3 /\ events_since s2 s3 evs
    /\ outputs evs = [7; 8; 9] ++ [PROTO_INSYNC; PROTO_OK].
Proof.
  intros s. apply (prog_multi_read_multi_round_trip s [7; 8; 9] 0x34 0x12 []).
  - compute_done.
  - exact sample_flash_reads_back_writes.
  - reflexivity.
  - unfold is_uint8; lia.
  - unfold is_uint8; lia.
  - reflexivity.
  - unfold is_uint8; simpl; lia.
  - simpl; lia.
  - reflexivity.
Defined.

Lemma little_endian_witness :
  let s := sample_state [0x24; 0x34; 0x12; 0x20] in
  exists s', iteration s = Ret tt s' /\ address s' = 0x1234.
Proof.
  intros s. destruct (load_address_is_little_endian s []) as [_ Hall].
  - compute_done.
  - apply (Hall 0x1234); [unfold is_uint16; lia | reflexivity].
Defined.

Lemma reboot_witness :
  let s := sample_state [0x30; 0x20] in
  exists s',
    iteration s = Ret tt s'
    /\ Z.testbit (RSTSRC s') 4 = true
    /\ (forall k, k <> 4 -> Z.testbit (RSTSRC s') k = Z.testbit (RSTSRC s) k)
    /\ trace s' = trace s /\ input s' = [0x20]
    /\ address s' = address s /\ fl s' = fl s /\ buf s' = buf s.
Proof.
  intros s. apply (reboot_sets_the_reset_bit_only s [0x20]).
  - compute_done.
  - reflexivity.
Defined.

Lemma erase_witness :
  let s := sample_state_at 0x1234 [0x23; 0x20] in
  exists s' evs,
    iteration s = Ret tt s' /\ events_since s s' evs
    /\ flash_ops evs = [EvEraseApp]
    /\ fl s' = flash_erase_app (fl s) /\ address s' = address s.
Proof.
  intros s. destruct (erase_commands_call_their_erase_once s []) as [Happ _].
  - compute_done.
  - apply Happ. reflexivity.
Defined.

Lemma read_flash_frames_witness :
  let s := sample_state_at 0xFFFF [0x26; 0x20; 0x26; 0x20] in
  exists s' evs,
    main_loop 2 s = Ret tt s' /\ events_since s s' evs
    /\ flash_ops evs = [EvFlashRead 0xFFFF 0xFF; EvFlashRead 0 0xFF]
    /\ address s' = 1
    /\ fl s' = fl s /\ input s' = [].
Proof.
  intros s. apply (read_flash_frames_read_in_sequence 2 s []).
  - compute_done.
  - unfold is_uint16; simpl; lia.
  - reflexivity.
Defined.

Lemma first_command_witness :
  exists s' evs,
    bootloader 0 0 [(1, 0xAB)] (replicate 32 0) [0x28; 2; 0x20] 1
    = CommandLoop (Ret tt s')
    /\ trace s' = evs
    /\ outputs evs = [0xFF; 0xAB] ++ [PROTO_INSYNC; PROTO_OK]
    /\ address s' = 2.
Proof.
  refine (first_command_reads_from_address_zero (F := sample_flash)
            0 0 [(1, 0xAB)] (replicate 32 0) 2 [] _ _ _).
  - compute_done.
  - reflexivity.
  - unfold is_uint8; lia.
Defined.
